(** * Sierra dithering of project-card thumbnails (src/dither-cards.js)

    A shallow embedding of [SierraDithering.process] and
    [SierraDithering.distributeErrorGrayscale], and the properties of the
    dithering engine that follow from the code.

    JavaScript numbers are IEEE-754 binary64 values; they are modelled by the
    executable specification of IEEE arithmetic in [SpecFloat], so that every
    definition below evaluates to the very bits the script computes.  The
    grayscale working copy is a [Float32Array]: every store into it rounds the
    binary64 value to binary32. *)

From Stdlib Require Import ZArith QArith Qpower Qabs Lia Lqa.
From Stdlib Require Import Floats.SpecFloat.
From stdpp Require Import base list list_numbers.

Local Open Scope Z_scope.

(** ** Numbers *)

Module Num.

(** A JavaScript number, kept in canonical binary64 form. *)
Definition num : Type := spec_float.

Definition prec64 : Z := 53.
Definition emax64 : Z := 1024.
Definition prec32 : Z := 24.
Definition emax32 : Z := 128.

(** An integer literal, or a byte read from the pixel data. *)
Definition of_int (z : Z) : num := binary_normalize prec64 emax64 z 0 false.

Definition add : num -> num -> num := SFadd prec64 emax64.
Definition sub : num -> num -> num := SFsub prec64 emax64.
Definition mul : num -> num -> num := SFmul prec64 emax64.
Definition div : num -> num -> num := SFdiv prec64 emax64.
Definition ltb : num -> num -> bool := SFltb.
Definition eqb : num -> num -> bool := SFeqb.

(** What arithmetic makes of [undefined]. *)
Definition NaN : num := S754_nan.

(** [Math.fround]: round to binary32 (ties to even), the result being again
    a binary64 value.  This is the conversion a [Float32Array] applies to
    every value stored into it. *)
Definition fround (v : num) : num :=
  match v with
  | S754_finite s m e =>
      match binary_normalize prec32 emax32 (cond_Zopp s (Zpos m)) e s with
      | S754_finite s' m' e' =>
          binary_normalize prec64 emax64 (cond_Zopp s' (Zpos m')) e' s'
      | r => r
      end
  | _ => v
  end.

(** A decimal literal [n / 10^k] denotes the binary64 value nearest to that
    rational, which is what the correctly rounded quotient of the two
    (exactly representable) integers is. *)
Definition decimal (n d : Z) : num := div (of_int n) (of_int d).

(** The exact rational value of a finite number (0 for the others). *)
Definition toQ (v : num) : Q :=
  match v with
  | S754_finite s m e => (inject_Z (cond_Zopp s (Zpos m)) * Qpower 2 e)%Q
  | _ => 0%Q
  end.

End Num.

Import Num.

(** ** Arrays *)

(** [a[i]] for a typed array or a list: [None] stands for [undefined], which
    is what an index outside the array reads. *)
Definition get {A} (a : list A) (i : Z) : option A :=
  if 0 <=? i then a !! Z.to_nat i else None.

(** [a[i] = v] on a typed array: a store outside the array is ignored. *)
Definition set {A} (a : list A) (i : Z) (v : A) : list A :=
  if 0 <=? i then <[Z.to_nat i := v]> a else a.

(** Reading an element as a number: [undefined] becomes [NaN] in arithmetic. *)
Definition to_number (o : option num) : num := default NaN o.

(** [data[i]] of the [Uint8ClampedArray], as a number. *)
Definition byte_at (data : list Z) (i : Z) : num :=
  to_number (of_int <$> get data i).

(** [grayscale[i]] of the [Float32Array], as a number. *)
Definition f32_get (g : list num) (i : Z) : num := to_number (get g i).

(** [grayscale[i] = v]. *)
Definition f32_set (g : list num) (i : Z) (v : num) : list num :=
  set g i (fround v).

(** [grayscale[i] += v]. *)
Definition f32_add (g : list num) (i : Z) (v : num) : list num :=
  f32_set g i (add (f32_get g i) v).

(** ** The engine *)

(** [for (let i = 0; i < n; i++) body] threading the state [s]. *)
Definition for_range {S} (n : Z) (body : S -> Z -> S) (s : S) : S :=
  foldl body s (seqZ 0 n).

Record ImageData := mkImageData {
  width : Z;
  height : Z;
  data : list Z
}.

Inductive exn := RangeError.

(** The completion of a call: a returned value or a thrown exception. *)
Inductive completion (A : Type) :=
| Return (v : A)
| Throw (e : exn).
Arguments Return {A} v.
Arguments Throw {A} e.

Module SierraDithering.

(** [this.matrix], the error distribution table of the constructor. *)
Definition matrix : list (list num) :=
  [ [ of_int 0; of_int 0; div (of_int 5) (of_int 32); div (of_int 3) (of_int 32) ];
    [ div (of_int 2) (of_int 32); div (of_int 4) (of_int 32);
      div (of_int 5) (of_int 32); div (of_int 4) (of_int 32);
      div (of_int 2) (of_int 32) ];
    [ of_int 0; div (of_int 2) (of_int 32); div (of_int 3) (of_int 32);
      div (of_int 2) (of_int 32); of_int 0 ] ].

(** [this.matrix[r][c]]. *)
Definition matrix_at (r c : nat) : num :=
  to_number (matrix !! r ≫= λ row, row !! c).

Definition distributeErrorGrayscale
    (grayscale : list num) (x y width height : Z) (error : num) : list num :=
  (* Row 0: current row, pixels to the right *)
  let grayscale :=
    if x + 2 <? width
    then f32_add grayscale (y * width + (x + 2)) (mul error (matrix_at 0 2))
    else grayscale in
  let grayscale :=
    if x + 3 <? width
    then f32_add grayscale (y * width + (x + 3)) (mul error (matrix_at 0 3))
    else grayscale in
  (* Row 1: next row *)
  let grayscale :=
    if y + 1 <? height then
      let grayscale :=
        if 0 <=? x - 2
        then f32_add grayscale ((y + 1) * width + (x - 2)) (mul error (matrix_at 1 0))
        else grayscale in
      let grayscale :=
        if 0 <=? x - 1
        then f32_add grayscale ((y + 1) * width + (x - 1)) (mul error (matrix_at 1 1))
        else grayscale in
      let grayscale :=
        f32_add grayscale ((y + 1) * width + x) (mul error (matrix_at 1 2)) in
      let grayscale :=
        if x + 1 <? width
        then f32_add grayscale ((y + 1) * width + (x + 1)) (mul error (matrix_at 1 3))
        else grayscale in
      if x + 2 <? width
      then f32_add grayscale ((y + 1) * width + (x + 2)) (mul error (matrix_at 1 4))
      else grayscale
    else grayscale in
  (* Row 2: two rows down *)
  if y + 2 <? height then
    let grayscale :=
      if 0 <=? x - 1
      then f32_add grayscale ((y + 2) * width + (x - 1)) (mul error (matrix_at 2 1))
      else grayscale in
    let grayscale :=
      f32_add grayscale ((y + 2) * width + x) (mul error (matrix_at 2 2)) in
    if x + 1 <? width
    then f32_add grayscale ((y + 2) * width + (x + 1)) (mul error (matrix_at 2 3))
    else grayscale
  else grayscale.

(** The luminance expression of the first loop,
    [0.299 * data[idx] + 0.587 * data[idx + 1] + 0.114 * data[idx + 2]]. *)
Definition gray_of (data : list Z) (i : Z) : num :=
  let idx := i * 4 in
  add (add (mul (decimal 299 1000) (byte_at data idx))
           (mul (decimal 587 1000) (byte_at data (idx + 1))))
      (mul (decimal 114 1000) (byte_at data (idx + 2))).

(** The first loop: the grayscale working copy of the whole image. *)
Definition to_grayscale (width height : Z) (data : list Z) : list num :=
  for_range (width * height)
    (λ grayscale i, f32_set grayscale i (gray_of data i))
    (replicate (Z.to_nat (width * height)) (of_int 0)).

(** The body of the second (nested) loop at pixel [(x, y)]; the state is
    the pixel data and the grayscale working copy. *)
Definition process_pixel (width height : Z)
    (st : list Z * list num) (x y : Z) : list Z * list num :=
  let '(data, grayscale) := st in
  let i := y * width + x in
  let idx := i * 4 in
  let oldPixel := f32_get grayscale i in
  let newPixel := if ltb oldPixel (of_int 60) then of_int 0 else of_int 255 in
  let error := sub oldPixel newPixel in
  let data :=
    if eqb newPixel (of_int 0) then
      set (set (set (set data idx 0) (idx + 1) 0) (idx + 2) 0) (idx + 3) 255
    else
      set (set (set (set data idx 0) (idx + 1) 0) (idx + 2) 0) (idx + 3) 0 in
  (data, distributeErrorGrayscale grayscale x y width height error).

(** The second loop: rows from top to bottom, each from left to right. *)
Definition dither (width height : Z) (st : list Z * list num)
    : list Z * list num :=
  for_range height
    (λ st y, for_range width (λ st x, process_pixel width height st x y) st)
    st.

(** [new Float32Array(n)] throws a [RangeError] when [n] is negative, when
    [n] exceeds 2^53 - 1, and when the engine cannot create a buffer of
    [n * 4] bytes.  How large a buffer the engine can create is its own
    affair: it is the parameter [max_byte_length].  A buffer no larger than
    an array the engine already holds (here the [held] bytes of
    [imageData.data]) is within its means. *)
Definition can_allocate (max_byte_length held n : Z) : bool :=
  (0 <=? n) &&
  ((n * 4 <=? held) || ((n * 4 <=? max_byte_length) && (n <=? 2 ^ 53 - 1))).

(** [process(imageData)], run by an engine of the given [max_byte_length].
    The allocation of the working copy is the only step that can throw.  The
    method writes into [imageData.data] and returns [imageData] itself. *)
Definition process (max_byte_length : Z) (imageData : ImageData)
    : completion ImageData :=
  let width := imageData.(width) in
  let height := imageData.(height) in
  let data := imageData.(data) in
  if can_allocate max_byte_length (Z.of_nat (length data)) (width * height)
  then
    let grayscale := to_grayscale width height data in
    let '(data, _) := dither width height (data, grayscale) in
    Return (mkImageData width height data)
  else Throw RangeError.

End SierraDithering.

Import SierraDithering.

(** ** The kernel as a table of offsets *)

(** The kernel as the specification tabulates it (section 4.3): row offset,
    column offset, weight.  It is not read off the code: [distribute_writes]
    below compares it with [distributeErrorGrayscale], and
    [kernel_table_matrix] with the entries of [matrix]. *)
Definition kernel_table : list (Z * Z * num) :=
  [ (0, 2, div (of_int 5) (of_int 32));
    (0, 3, div (of_int 3) (of_int 32));
    (1, -2, div (of_int 2) (of_int 32));
    (1, -1, div (of_int 4) (of_int 32));
    (1, 0, div (of_int 5) (of_int 32));
    (1, 1, div (of_int 4) (of_int 32));
    (1, 2, div (of_int 2) (of_int 32));
    (2, -1, div (of_int 2) (of_int 32));
    (2, 0, div (of_int 3) (of_int 32));
    (2, 1, div (of_int 2) (of_int 32)) ].

(** The coordinate [(tx, ty)] lies within [0, width) x [0, height). *)
Definition in_bounds (width height tx ty : Z) : bool :=
  (0 <=? tx) && (tx <? width) && (0 <=? ty) && (ty <? height).

(** The entries of the table whose target, seen from [(x, y)], is in bounds. *)
Definition targets (x y width height : Z) : list (Z * Z * num) :=
  List.filter (λ t, in_bounds width height (x + t.1.2) (y + t.1.1)) kernel_table.

(** The buffer index of a target and the amount added there. *)
Definition write_of (x y width : Z) (error : num) (t : Z * Z * num) : Z * num :=
  ((y + t.1.1) * width + (x + t.1.2), mul error t.2).

Definition writes (x y width height : Z) (error : num) : list (Z * num) :=
  write_of x y width error <$> targets x y width height.

(** Performing a list of [grayscale[i] += v] in order. *)
Definition apply_writes (g : list num) (ws : list (Z * num)) : list num :=
  foldl (λ g w, f32_add g w.1 w.2) g ws.

(** The sum of the weights that the diffusion from [(x, y)] applies, and the
    sum of the amounts it adds, both taken exactly. *)
Definition Qsum (l : list Q) : Q := foldr Qplus 0%Q l.

Definition diffused_weight (x y width height : Z) : Q :=
  Qsum ((λ t, toQ t.2) <$> targets x y width height).

Definition diffused_total (x y width height : Z) (error : num) : Q :=
  Qsum ((λ w, toQ w.2) <$> writes x y width height error).


(** An ordinary error value: a finite, non-zero binary64 number in canonical
    form (a mantissa of 53 digits) of magnitude at least 2^-1018, so that its
    product with a weight of the kernel does not underflow. *)
Definition normal (v : num) : Prop :=
  match v with
  | S754_finite _ m e => Zpos (digits2_pos m) = 53 ∧ -1070 ≤ e ≤ 971
  | _ => False
  end.

(** A pixel all of whose kernel targets are in bounds. *)
Definition interior (x y width height : Z) : Prop :=
  2 ≤ x ∧ x + 3 < width ∧ 0 ≤ y ∧ y + 2 < height.

(** ** The scan in row-major order *)

(** The pixel with row-major index [i]. *)
Definition step (width height : Z) (st : list Z * list num) (i : Z)
    : list Z * list num :=
  process_pixel width height st (i mod width) (i / width).

(** The state once the first [k] pixels in row-major order are processed. *)
Definition scan_prefix (width height : Z) (st : list Z * list num) (k : Z)
    : list Z * list num :=
  for_range k (step width height) st.

(** The alpha byte and the quantisation error decided by a luminance. *)
Definition alpha_of (oldPixel : num) : Z :=
  if ltb oldPixel (of_int 60) then 255 else 0.

Definition error_of (oldPixel : num) : num :=
  sub oldPixel (if ltb oldPixel (of_int 60) then of_int 0 else of_int 255).

(** The grayscale working copy alone, one pixel further. *)
Definition gray_step (width height : Z) (g : list num) (i : Z) : list num :=
  distributeErrorGrayscale g (i mod width) (i / width) width height
    (error_of (f32_get g i)).

(** The working copy just before pixel [i] is processed. *)
Definition gray_before (img : ImageData) (i : Z) : list num :=
  for_range i (gray_step img.(width) img.(height))
    (to_grayscale img.(width) img.(height) img.(data)).

(** A valid input: positive dimensions and four bytes per pixel. *)
Definition valid (img : ImageData) : Prop :=
  0 < img.(width) ∧ 0 < img.(height) ∧
  Z.of_nat (length img.(data)) = img.(width) * img.(height) * 4.

(** The four channels of pixel [i], and the two pixels of a stencil. *)
Definition pixel (d : list Z) (i : Z) : list (option Z) :=
  [get d (i * 4); get d (i * 4 + 1); get d (i * 4 + 2); get d (i * 4 + 3)].

Definition opaque_black : list (option Z) := [Some 0; Some 0; Some 0; Some 255].
Definition transparent : list (option Z) := [Some 0; Some 0; Some 0; Some 0].

(** The four stores of a pixel: black with the given alpha. *)
Definition write_pixel (data : list Z) (idx alpha : Z) : list Z :=
  set (set (set (set data idx 0) (idx + 1) 0) (idx + 2) 0) (idx + 3) alpha.

(** ** Sample images *)

(** An engine that creates buffers of up to 2 GiB. *)
Definition sample_limit : Z := 2 ^ 31.

(** A 3x1 image: luminances 59, 0 and 55. *)
Definition img_dependent : ImageData :=
  mkImageData 3 1 [59; 59; 59; 255; 0; 0; 0; 255; 55; 55; 55; 255].

(** A single pixel whose luminance expression is just below 60. *)
Definition img_rounded : ImageData := mkImageData 1 1 [15; 87; 39; 255].

Definition ten : num := of_int 10.

(** A 4x1 image, every pixel of luminance 10. *)
Definition img_tens : ImageData :=
  mkImageData 4 1
    [10; 10; 10; 255; 10; 10; 10; 255; 10; 10; 10; 255; 10; 10; 10; 255].

(** The working copy of a black 6x3 image. *)
Definition gray_black_6x3 : list num := replicate 18 (of_int 0).

(** Like [img_dependent] but for its last pixel. *)
Definition img_dependent_alt : ImageData :=
  mkImageData 3 1 [59; 59; 59; 0; 0; 0; 0; 7; 200; 100; 50; 255].

(** A white 2x1 image and an opaque black 2x1 stencil. *)
Definition img_white : ImageData :=
  mkImageData 2 1 [255; 255; 255; 255; 255; 255; 255; 0].

Definition img_opaque : ImageData :=
  mkImageData 2 1 [0; 0; 0; 255; 0; 0; 0; 255].

(** A 2x2 image. *)
Definition img_two_rows : ImageData :=
  mkImageData 2 2
    [200; 200; 200; 255; 20; 20; 20; 255; 70; 70; 70; 255; 50; 50; 50; 255].

(** ** Arrays: reading after writing *)

Section Arrays.
Context {A : Type}.
Implicit Types (a : list A) (i j : Z) (v : A).

Lemma length_set a i v : length (set a i v) = length a.
Proof. unfold set. destruct (0 <=? i); [apply length_insert | done]. Qed.

Lemma get_set_ne a i j v : i ≠ j → get (set a i v) j = get a j.
Proof.
  intros Hne. unfold get, set.
  destruct (Z.leb_spec 0 j); [|done].
  destruct (Z.leb_spec 0 i); [|done].
  apply list_lookup_insert_ne. lia.
Qed.

Lemma get_set_eq a i v :
  0 ≤ i < Z.of_nat (length a) → get (set a i v) i = Some v.
Proof.
  intros Hi. unfold get, set.
  destruct (Z.leb_spec 0 i); [|lia].
  apply list_lookup_insert_eq. lia.
Qed.

Lemma get_is_Some a i : 0 ≤ i < Z.of_nat (length a) → is_Some (get a i).
Proof.
  intros Hi. unfold get. destruct (Z.leb_spec 0 i); [|lia].
  apply lookup_lt_is_Some. lia.
Qed.

Lemma get_None a i : i < 0 ∨ Z.of_nat (length a) ≤ i → get a i = None.
Proof.
  intros Hi. unfold get. destruct (Z.leb_spec 0 i); [|done].
  apply lookup_ge_None. lia.
Qed.

Lemma set_out_of_range a i v :
  i < 0 ∨ Z.of_nat (length a) ≤ i → set a i v = a.
Proof.
  intros Hi. unfold set. destruct (Z.leb_spec 0 i); [|done].
  apply list_insert_ge. lia.
Qed.

Lemma get_ext a b :
  length a = length b →
  (∀ i, 0 ≤ i < Z.of_nat (length a) → get a i = get b i) → a = b.
Proof.
  intros Hlen Hget. apply list_eq. intros n.
  destruct (decide (n < length a)%nat) as [Hn|Hn].
  - specialize (Hget (Z.of_nat n)). unfold get in Hget.
    destruct (Z.leb_spec 0 (Z.of_nat n)); [|lia].
    rewrite Nat2Z.id in Hget. apply Hget. lia.
  - rewrite !lookup_ge_None_2 by lia. done.
Qed.

End Arrays.

Lemma length_f32_add g i v : length (f32_add g i v) = length g.
Proof. apply length_set. Qed.

Lemma get_f32_add_ne g i j v : i ≠ j → get (f32_add g i v) j = get g j.
Proof. apply get_set_ne. Qed.

Lemma get_f32_add_eq g i v :
  0 ≤ i < Z.of_nat (length g) →
  get (f32_add g i v) i = Some (fround (add (f32_get g i) v)).
Proof. apply get_set_eq. Qed.

(** ** The diffusion step as a list of writes *)

Lemma in_bounds_spec width height tx ty :
  in_bounds width height tx ty = true ↔ 0 ≤ tx < width ∧ 0 ≤ ty < height.
Proof. unfold in_bounds. rewrite !andb_true_iff. lia. Qed.

(** For a pixel of the image the bounds test of each target is the guard
    the code writes; the cases of the seven guards. *)
Ltac kernel_guards x y width height :=
  unfold targets, kernel_table, in_bounds;
  cbn [List.filter fst snd];
  rewrite ?Z.add_0_r;
  change (x + -2) with (x - 2); change (x + -1) with (x - 1);
  replace (0 <=? y) with true by lia;
  replace (y <? height) with true by lia;
  replace (0 <=? x) with true by lia;
  replace (x <? width) with true by lia;
  replace (0 <=? x + 2) with true by lia;
  replace (0 <=? x + 3) with true by lia;
  replace (0 <=? x + 1) with true by lia;
  replace (0 <=? y + 1) with true by lia;
  replace (0 <=? y + 2) with true by lia;
  replace (x - 2 <? width) with true by lia;
  replace (x - 1 <? width) with true by lia;
  cbn [andb];
  rewrite ?andb_true_r;
  destruct (Z.ltb_spec (x + 2) width), (Z.ltb_spec (x + 3) width),
    (Z.ltb_spec (y + 1) height), (Z.leb_spec 0 (x - 2)),
    (Z.leb_spec 0 (x - 1)), (Z.ltb_spec (x + 1) width),
    (Z.ltb_spec (y + 2) height);
  cbn [andb].

Lemma distribute_writes g x y width height error :
  0 ≤ x < width → 0 ≤ y < height →
  distributeErrorGrayscale g x y width height error
  = apply_writes g (writes x y width height error).
Proof.
  intros Hx Hy. unfold distributeErrorGrayscale, apply_writes, writes.
  kernel_guards x y width height;
    cbn [fmap list_fmap foldl write_of fst snd];
    rewrite ?Z.add_0_r; reflexivity.
Qed.

Lemma length_apply_writes ws g : length (apply_writes g ws) = length g.
Proof.
  revert g. induction ws as [|w ws IH]; intros g; [done|].
  cbn. unfold apply_writes in IH. rewrite IH. apply length_f32_add.
Qed.

Lemma get_apply_writes_other ws g j :
  j ∉ ws.*1 → get (apply_writes g ws) j = get g j.
Proof.
  revert g. induction ws as [|w ws IH]; intros g Hj; [done|].
  cbn in Hj. apply not_elem_of_cons in Hj as [Hne Hj].
  cbn. unfold apply_writes in IH. rewrite IH by done.
  apply get_f32_add_ne. done.
Qed.

Lemma get_apply_writes_at ws g i v :
  NoDup ws.*1 → (i, v) ∈ ws → 0 ≤ i < Z.of_nat (length g) →
  get (apply_writes g ws) i = Some (fround (add (f32_get g i) v)).
Proof.
  revert g. induction ws as [|w ws IH]; intros g Hnd Hin Hi.
  - by apply elem_of_nil in Hin.
  - cbn in Hnd. apply NoDup_cons in Hnd as [Hfresh Hnd].
    apply elem_of_cons in Hin as [<-|Hin]; cbn.
    + fold (apply_writes (f32_add g i v) ws).
      rewrite get_apply_writes_other by done.
      by apply get_f32_add_eq.
    + fold (apply_writes (f32_add g w.1 w.2) ws).
      assert (w.1 ≠ i) as Hne.
      { intros <-. apply Hfresh. apply list_elem_of_fmap. by exists (w.1, v). }
      rewrite IH; [|done|done|by rewrite length_f32_add].
      unfold f32_get. by rewrite get_f32_add_ne.
Qed.

(** Every entry of the table lies strictly later in scan order. *)
Lemma kernel_table_later t :
  t ∈ kernel_table → (t.1.1 = 0 ∧ 2 ≤ t.1.2 ≤ 3) ∨ (1 ≤ t.1.1 ≤ 2 ∧ -2 ≤ t.1.2 ≤ 2).
Proof.
  unfold kernel_table. rewrite !elem_of_cons, elem_of_nil.
  intros H. repeat destruct H as [->|H]; cbn; lia.
Qed.

Lemma elem_of_targets t x y width height :
  t ∈ targets x y width height ↔
  t ∈ kernel_table ∧ 0 ≤ x + t.1.2 < width ∧ 0 ≤ y + t.1.1 < height.
Proof.
  unfold targets. rewrite !list_elem_of_In, filter_In, in_bounds_spec. done.
Qed.

Lemma NoDup_kernel_offsets : NoDup (kernel_table.*1).
Proof. apply (bool_decide_unpack _). by vm_compute. Qed.

Lemma kernel_table_offsets_inj t t' :
  t ∈ kernel_table → t' ∈ kernel_table → t.1 = t'.1 → t = t'.
Proof.
  unfold kernel_table. rewrite !elem_of_cons, !elem_of_nil.
  intros H H'.
  repeat destruct H as [->|H]; try done;
    repeat destruct H' as [->|H']; try done; cbn; intros [=]; done.
Qed.

Lemma NoDup_List_filter {A} (f : A → bool) (l : list A) :
  NoDup l → NoDup (List.filter f l).
Proof.
  induction 1 as [|a l Ha Hl IH]; cbn; [constructor|].
  destruct (f a); [|done]. constructor; [|done].
  rewrite list_elem_of_In, filter_In, <- list_elem_of_In. tauto.
Qed.

Lemma NoDup_targets x y width height : NoDup (targets x y width height).
Proof.
  apply NoDup_List_filter. apply (NoDup_fmap_1 fst), NoDup_kernel_offsets.
Qed.

Lemma NoDup_writes x y width height error :
  NoDup (writes x y width height error).*1.
Proof.
  unfold writes. rewrite <- list_fmap_compose.
  apply NoDup_fmap_2_strong; [|apply NoDup_targets].
  intros t t' [Ht [Hx Hy]]%elem_of_targets [Ht' [Hx' Hy']]%elem_of_targets Heq.
  cbn in Heq. apply kernel_table_offsets_inj; [done..|].
  pose proof (kernel_table_later _ Ht) as Hl.
  pose proof (kernel_table_later _ Ht') as Hl'.
  assert (t.1.1 = t'.1.1 ∧ t.1.2 = t'.1.2) as [??].
  { assert (t.1.1 = 0 ∨ t.1.1 = 1 ∨ t.1.1 = 2) as [Hd|[Hd|Hd]] by lia;
      assert (t'.1.1 = 0 ∨ t'.1.1 = 1 ∨ t'.1.1 = 2) as [Hd'|[Hd'|Hd']] by lia;
      rewrite Hd, Hd' in *; lia. }
  destruct t as [[??]?], t' as [[??]?]; cbn in *. congruence.
Qed.

Lemma elem_of_writes i v x y width height error :
  (i, v) ∈ writes x y width height error ↔
  ∃ t, t ∈ kernel_table ∧ 0 ≤ x + t.1.2 < width ∧ 0 ≤ y + t.1.1 < height ∧
       i = (y + t.1.1) * width + (x + t.1.2) ∧ v = mul error t.2.
Proof.
  unfold writes. rewrite list_elem_of_fmap. unfold write_of.
  split.
  - intros (t & [= -> ->] & Ht%elem_of_targets). exists t. tauto.
  - intros (t & Ht & Hx & Hy & -> & ->). exists t. split; [done|].
    apply elem_of_targets. tauto.
Qed.

Section Loops.
Context {S : Type}.
Implicit Types (body : S → Z → S) (s : S).

Lemma for_range_nonpos n body s : n ≤ 0 → for_range n body s = s.
Proof. intros Hn. unfold for_range. by rewrite seqZ_nil. Qed.

Lemma for_range_succ n body s :
  0 ≤ n → for_range (n + 1) body s = body (for_range n body s) n.
Proof.
  intros Hn. unfold for_range. rewrite seqZ_app by lia.
  rewrite foldl_app. rewrite (seqZ_cons (0 + n)) by lia.
  rewrite (seqZ_nil (Z.succ (0 + n))) by lia. done.
Qed.

Lemma for_range_ext n body body' s :
  (∀ s' i, 0 ≤ i < n → body s' i = body' s' i) →
  for_range n body s = for_range n body' s.
Proof.
  intros Hext. destruct (Z_lt_le_dec n 0) as [Hn|Hn].
  { by rewrite !for_range_nonpos by lia. }
  revert Hext. pattern n. apply natlike_ind; [| |done].
  - done.
  - clear n Hn. intros n Hn IH Hext. rewrite <- !Z.add_1_r.
    rewrite !for_range_succ by done. rewrite IH by (intros; apply Hext; lia).
    apply Hext. lia.
Qed.

(** Two nested counting loops are one loop over the row-major index. *)
Lemma for_range_nested (w n : Z) (body2 : S → Z → Z → S) s :
  0 < w → 
  for_range n (λ s y, for_range w (λ s x, body2 s x y) s) s
  = for_range (w * n) (λ s i, body2 s (i mod w) (i / w)) s.
Proof.
  intros Hw. destruct (Z_lt_le_dec n 0) as [Hn|Hn].
  { rewrite !for_range_nonpos by nia. done. }
  pattern n. apply natlike_ind; [| |done].
  - rewrite !for_range_nonpos by lia. done.
  - clear n Hn. intros n Hn IH. rewrite <- Z.add_1_r.
    rewrite for_range_succ by done. rewrite IH.
    unfold for_range at 3.
    replace (w * (n + 1)) with (w * n + w) by lia.
    rewrite seqZ_app by nia. rewrite foldl_app.
    fold (for_range (w * n) (λ s i, body2 s (i mod w) (i / w)) s).
    generalize (for_range (w * n) (λ s i, body2 s (i mod w) (i / w)) s).
    intros s'. rewrite <- (Z.add_0_r (0 + w * n)).
    rewrite <- fmap_add_seqZ, foldl_fmap.
    apply for_range_ext. intros s'' i Hi.
    replace (0 + w * n + i) with (i + n * w) by lia.
    rewrite Z_mod_plus_full, Z_div_plus_full by lia.
    rewrite Z.mod_small, Z.div_small by lia. f_equal. 
Qed.
End Loops.

(** ** One pixel of the scan *)

Lemma length_write_pixel d idx a : length (write_pixel d idx a) = length d.
Proof. unfold write_pixel. by rewrite !length_set. Qed.

Lemma get_write_pixel_other d idx a j :
  j < idx ∨ idx + 4 ≤ j → get (write_pixel d idx a) j = get d j.
Proof. intros Hj. unfold write_pixel. rewrite !get_set_ne by lia. done. Qed.

Lemma get_write_pixel_rgb d idx a c :
  0 ≤ c < 3 → 0 ≤ idx → idx + c < Z.of_nat (length d) →
  get (write_pixel d idx a) (idx + c) = Some 0.
Proof.
  intros Hc Hidx Hlen. unfold write_pixel.
  assert (c = 0 ∨ c = 1 ∨ c = 2) as [-> | [-> | ->]] by lia.
  - rewrite Z.add_0_r. rewrite !get_set_ne by lia. apply get_set_eq. lia.
  - rewrite !get_set_ne by lia. apply get_set_eq. rewrite length_set. lia.
  - rewrite !get_set_ne by lia. apply get_set_eq. rewrite !length_set. lia.
Qed.

Lemma get_write_pixel_alpha d idx a :
  0 ≤ idx → idx + 3 < Z.of_nat (length d) →
  get (write_pixel d idx a) (idx + 3) = Some a.
Proof.
  intros Hidx Hlen. unfold write_pixel. apply get_set_eq.
  rewrite !length_set. lia.
Qed.

Lemma process_pixel_eq width height d g x y :
  process_pixel width height (d, g) x y
  = (write_pixel d ((y * width + x) * 4) (alpha_of (f32_get g (y * width + x))),
     distributeErrorGrayscale g x y width height
       (error_of (f32_get g (y * width + x)))).
Proof.
  unfold process_pixel, alpha_of, error_of, write_pixel.
  destruct (ltb (f32_get g (y * width + x)) (of_int 60)); reflexivity.
Qed.

Lemma step_eq width height d g i :
  0 < width →
  step width height (d, g) i
  = (write_pixel d (i * 4) (alpha_of (f32_get g i)), gray_step width height g i).
Proof.
  intros Hw. unfold step. rewrite process_pixel_eq.
  replace (i / width * width + i mod width) with i
    by (rewrite (Z.div_mod i width) at 1 by lia; lia).
  reflexivity.
Qed.

Lemma length_distribute g x y width height error :
  length (distributeErrorGrayscale g x y width height error) = length g.
Proof.
  unfold distributeErrorGrayscale.
  repeat match goal with
         | |- context [if ?b then _ else _] => destruct b
         end; rewrite ?length_f32_add; reflexivity.
Qed.

Lemma length_gray_step width height g i :
  length (gray_step width height g i) = length g.
Proof. apply length_distribute. Qed.

Lemma length_for_range_gray_step width height g k :
  length (for_range k (gray_step width height) g) = length g.
Proof.
  destruct (Z_lt_le_dec k 0) as [Hk|Hk].
  { by rewrite for_range_nonpos by lia. }
  pattern k. apply natlike_ind; [| |done].
  - done.
  - intros n Hn IH. rewrite <- Z.add_1_r, for_range_succ by done.
    by rewrite length_gray_step.
Qed.

(** The working copy evolves on its own: the pixel data never feeds back. *)
Lemma scan_prefix_eq width height d g k :
  0 < width → 0 ≤ k →
  scan_prefix width height (d, g) k
  = ((scan_prefix width height (d, g) k).1,
     for_range k (gray_step width height) g).
Proof.
  intros Hw Hk. unfold scan_prefix. pattern k. apply natlike_ind; [| |done].
  - done.
  - intros n Hn IH. rewrite <- Z.add_1_r, !for_range_succ by done.
    destruct (for_range n (step width height) (d, g)) as [dn gn].
    injection IH as IH. rewrite step_eq by done. cbn. by rewrite <- IH.
Qed.

Lemma scan_prefix_succ width height d g k :
  0 < width → 0 ≤ k →
  scan_prefix width height (d, g) (k + 1)
  = (write_pixel (scan_prefix width height (d, g) k).1 (k * 4)
       (alpha_of (f32_get (for_range k (gray_step width height) g) k)),
     gray_step width height (for_range k (gray_step width height) g) k).
Proof.
  intros Hw Hk. unfold scan_prefix at 1. rewrite for_range_succ by done.
  fold (scan_prefix width height (d, g) k).
  rewrite (scan_prefix_eq width height d g k) at 1 by done.
  by rewrite step_eq.
Qed.

Lemma length_scan_prefix_data width height d g k :
  0 < width → length (scan_prefix width height (d, g) k).1 = length d.
Proof.
  intros Hw. destruct (Z_lt_le_dec k 0) as [Hk|Hk].
  { unfold scan_prefix. by rewrite for_range_nonpos by lia. }
  pattern k. apply natlike_ind; [| |done].
  - done.
  - intros n Hn IH. rewrite <- Z.add_1_r, scan_prefix_succ by done.
    cbn. by rewrite length_write_pixel.
Qed.

(** Pixels not yet reached keep their bytes. *)
Lemma scan_prefix_data_later width height d g k j :
  0 < width → 0 ≤ k → k * 4 ≤ j →
  get (scan_prefix width height (d, g) k).1 j = get d j.
Proof.
  intros Hw Hk. revert j. pattern k. apply natlike_ind; [| |done].
  - done.
  - intros n Hn IH j Hj. rewrite <- Z.add_1_r, scan_prefix_succ by done.
    cbn. rewrite get_write_pixel_other by lia. apply IH. lia.
Qed.

(** A pixel's bytes are those written when the scan passed over it. *)
Lemma scan_prefix_data_rgb width height d g k i c :
  0 < width → 0 ≤ i < k → 0 ≤ c < 3 → i * 4 + 3 < Z.of_nat (length d) →
  get (scan_prefix width height (d, g) k).1 (i * 4 + c) = Some 0.
Proof.
  intros Hw Hi Hc Hlen. assert (0 ≤ k) as Hk by lia.
  revert Hi. pattern k. apply natlike_ind; [| |done].
  - lia.
  - intros n Hn IH Hi. rewrite <- Z.add_1_r, scan_prefix_succ by done. cbn.
    destruct (decide (i = n)) as [->|Hne].
    + apply get_write_pixel_rgb; [done|lia|].
      rewrite length_scan_prefix_data by done. lia.
    + rewrite get_write_pixel_other by lia. apply IH. lia.
Qed.

Lemma scan_prefix_data_alpha width height d g k i :
  0 < width → 0 ≤ i < k → i * 4 + 3 < Z.of_nat (length d) →
  get (scan_prefix width height (d, g) k).1 (i * 4 + 3)
  = Some (alpha_of (f32_get (for_range i (gray_step width height) g) i)).
Proof.
  intros Hw Hi Hlen. assert (0 ≤ k) as Hk by lia.
  revert Hi. pattern k. apply natlike_ind; [| |done].
  - lia.
  - intros n Hn IH Hi. rewrite <- Z.add_1_r, scan_prefix_succ by done. cbn.
    destruct (decide (i = n)) as [->|Hne].
    + apply get_write_pixel_alpha; [lia|].
      rewrite length_scan_prefix_data by done. lia.
    + rewrite get_write_pixel_other by lia. apply IH. lia.
Qed.

Lemma dither_row_major width height st :
  0 < width →
  dither width height st = scan_prefix width height st (width * height).
Proof.
  intros Hw. unfold dither, scan_prefix, step.
  apply (for_range_nested width height (λ s x y, process_pixel width height s x y)).
  done.
Qed.

(** ** The grayscale conversion *)

Lemma for_range_f32_set (f : Z → num) g k :
  0 ≤ k ≤ Z.of_nat (length g) →
  length (for_range k (λ g i, f32_set g i (f i)) g) = length g ∧
  ∀ i, get (for_range k (λ g i, f32_set g i (f i)) g) i
       = if decide (0 ≤ i < k) then Some (fround (f i)) else get g i.
Proof.
  intros [Hk Hlen]. revert Hlen. pattern k. apply natlike_ind; [| |done].
  - intros _. split; [done|]. intros i. by rewrite decide_False by lia.
  - intros n Hn IH Hlen. destruct IH as [IHlen IH]; [lia|].
    rewrite <- Z.add_1_r, for_range_succ by done. unfold f32_set at 1 3.
    split; [by rewrite length_set|].
    intros i. destruct (decide (i = n)) as [->|Hne].
    + rewrite get_set_eq by lia. by rewrite decide_True by lia.
    + rewrite get_set_ne by done. rewrite IH.
      repeat case_decide; done || lia.
Qed.

Lemma length_to_grayscale width height d :
  length (to_grayscale width height d) = Z.to_nat (width * height).
Proof.
  unfold to_grayscale. destruct (Z_lt_le_dec (width * height) 0) as [Hn|Hn].
  - rewrite for_range_nonpos by lia. by rewrite length_replicate.
  - edestruct for_range_f32_set as [-> _]; rewrite length_replicate; lia.
Qed.

Lemma get_to_grayscale width height d i :
  0 ≤ i < width * height →
  get (to_grayscale width height d) i = Some (fround (gray_of d i)).
Proof.
  intros Hi. unfold to_grayscale.
  edestruct for_range_f32_set as [_ ->]; [rewrite length_replicate; lia|].
  by rewrite decide_True by lia.
Qed.

Lemma length_gray_before img i :
  length (gray_before img i) = Z.to_nat (img.(width) * img.(height)).
Proof.
  unfold gray_before. by rewrite length_for_range_gray_step, length_to_grayscale.
Qed.

(** ** What [process] returns *)

Lemma can_allocate_spec L held n :
  can_allocate L held n = true ↔
  0 ≤ n ∧ (n * 4 ≤ held ∨ (n * 4 ≤ L ∧ n ≤ 2 ^ 53 - 1)).
Proof.
  unfold can_allocate.
  rewrite andb_true_iff, orb_true_iff, andb_true_iff, !Z.leb_le. tauto.
Qed.

Lemma process_Return L img :
  0 < img.(width) → 0 ≤ img.(height) →
  img.(width) * img.(height) * 4 ≤ Z.of_nat (length img.(data)) ∨
  (img.(width) * img.(height) * 4 ≤ L ∧ img.(width) * img.(height) ≤ 2 ^ 53 - 1) →
  process L img
  = Return (mkImageData img.(width) img.(height)
      (scan_prefix img.(width) img.(height)
         (img.(data), to_grayscale img.(width) img.(height) img.(data))
         (img.(width) * img.(height))).1).
Proof.
  intros Hw Hh Halloc. unfold process.
  rewrite (proj2 (can_allocate_spec _ _ _)) by (split; [nia | done]).
  rewrite dither_row_major by done.
  by destruct (scan_prefix _ _ _ _).
Qed.

Lemma for_range_id {S} n (body : S → Z → S) s :
  (∀ s' i, body s' i = s') → for_range n body s = s.
Proof.
  intros Hid. destruct (Z_lt_le_dec n 0) as [Hn|Hn].
  { by rewrite for_range_nonpos by lia. }
  pattern n. apply natlike_ind; [| |done].
  - done.
  - intros k Hk IH. by rewrite <- Z.add_1_r, for_range_succ, Hid.
Qed.

Lemma dither_empty width height st :
  width ≤ 0 ∨ height ≤ 0 → dither width height st = st.
Proof.
  intros [Hw|Hh]; unfold dither.
  - apply for_range_id. intros s' y. by apply for_range_nonpos.
  - by apply for_range_nonpos.
Qed.

Lemma scan_prefix_gray img i :
  0 < img.(width) → 0 ≤ i →
  (scan_prefix img.(width) img.(height)
     (img.(data), to_grayscale img.(width) img.(height) img.(data)) i).2
  = gray_before img i.
Proof. intros Hw Hi. by rewrite scan_prefix_eq. Qed.

Lemma gray_before_succ img i :
  0 ≤ i →
  gray_before img (i + 1)
  = distributeErrorGrayscale (gray_before img i)
      (i mod img.(width)) (i / img.(width)) img.(width) img.(height)
      (error_of (f32_get (gray_before img i) i)).
Proof. intros Hi. unfold gray_before. by rewrite for_range_succ. Qed.

(** The result of [process] on a valid input, pixel by pixel. *)
Lemma process_valid L img :
  valid img →
  ∃ out, process L img = Return out ∧
    out.(width) = img.(width) ∧ out.(height) = img.(height) ∧
    length out.(data) = length img.(data) ∧
    ∀ i, 0 ≤ i < img.(width) * img.(height) →
      pixel out.(data) i
      = [Some 0; Some 0; Some 0;
         Some (alpha_of (f32_get (gray_before img i) i))].
Proof.
  intros (Hw & Hh & Hlen). eexists. split; [apply process_Return; lia|].
  cbn [width height data]. split; [done|]. split; [done|].
  split; [by apply length_scan_prefix_data|].
  intros i Hi. unfold pixel.
  rewrite <- (Z.add_0_r (i * 4)) at 1.
  rewrite !scan_prefix_data_rgb by lia.
  rewrite scan_prefix_data_alpha by lia. done.
Qed.


(** ** The diffusion step: where it writes *)

Lemma write_index_later i v x y width height error :
  0 ≤ x < width → 0 ≤ y < height →
  (i, v) ∈ writes x y width height error →
  y * width + x < i < width * height.
Proof.
  intros Hx Hy (t & Ht & Hx' & Hy' & -> & _)%elem_of_writes.
  pose proof (kernel_table_later _ Ht) as Hl.
  assert (t.1.1 = 0 ∨ t.1.1 = 1 ∨ t.1.1 = 2) as [Hd|[Hd|Hd]] by lia;
    rewrite Hd in *; nia.
Qed.

Lemma distribute_earlier g x y width height error j :
  0 ≤ x < width → 0 ≤ y < height → j ≤ y * width + x →
  get (distributeErrorGrayscale g x y width height error) j = get g j.
Proof.
  intros Hx Hy Hj. rewrite distribute_writes by done.
  apply get_apply_writes_other.
  intros ([i v] & -> & Hin)%list_elem_of_fmap. cbn in Hj.
  pose proof (write_index_later _ _ _ _ _ _ _ Hx Hy Hin). lia.
Qed.

Lemma distribute_target g x y width height error t :
  0 ≤ x < width → 0 ≤ y < height →
  Z.of_nat (length g) = width * height →
  t ∈ kernel_table → 0 ≤ x + t.1.2 < width → 0 ≤ y + t.1.1 < height →
  get (distributeErrorGrayscale g x y width height error)
      ((y + t.1.1) * width + (x + t.1.2))
  = Some (fround (add (f32_get g ((y + t.1.1) * width + (x + t.1.2)))
                      (mul error t.2))).
Proof.
  intros Hx Hy Hlen Ht Htx Hty. rewrite distribute_writes by done.
  assert (((y + t.1.1) * width + (x + t.1.2), mul error t.2)
            ∈ writes x y width height error) as Hin.
  { apply elem_of_writes. exists t. tauto. }
  apply get_apply_writes_at; [apply NoDup_writes|done|].
  pose proof (write_index_later _ _ _ _ _ _ _ Hx Hy Hin). nia.
Qed.

Lemma distribute_elsewhere g x y width height error j :
  0 ≤ x < width → 0 ≤ y < height →
  (∀ t, t ∈ kernel_table → 0 ≤ x + t.1.2 < width → 0 ≤ y + t.1.1 < height →
        j ≠ (y + t.1.1) * width + (x + t.1.2)) →
  get (distributeErrorGrayscale g x y width height error) j = get g j.
Proof.
  intros Hx Hy Hj. rewrite distribute_writes by done.
  apply get_apply_writes_other.
  intros ([i v] & -> & (t & Ht & Hx' & Hy' & Hi & _)%elem_of_writes)%list_elem_of_fmap.
  by apply (Hj t).
Qed.

(** ** The weights *)

Lemma kernel_table_matrix :
  (λ t, matrix_at (Z.to_nat t.1.1)
          (Z.to_nat (if t.1.1 =? 0 then t.1.2 else t.1.2 + 2))) <$> kernel_table
  = kernel_table.*2.
Proof. vm_compute. reflexivity. Qed.

Lemma kernel_table_exact :
  Forall2 (λ t q, toQ t.2 == q)%Q kernel_table
    [5 # 32; 3 # 32; 2 # 32; 4 # 32; 5 # 32; 4 # 32; 2 # 32; 2 # 32; 3 # 32; 2 # 32]%Q.
Proof. repeat constructor. Qed.

Lemma targets_interior x y width height :
  interior x y width height → targets x y width height = kernel_table.
Proof.
  intros (Hx & Hx' & Hy & Hy').
  kernel_guards x y width height; (reflexivity || lia).
Qed.

Lemma diffused_weight_interior x y width height :
  interior x y width height → (diffused_weight x y width height == 1)%Q.
Proof. intros Hi. unfold diffused_weight. by rewrite targets_interior. Qed.

Lemma diffused_weight_edge x y width height :
  0 ≤ x < width → 0 ≤ y < height → ¬ interior x y width height →
  (diffused_weight x y width height < 1)%Q.
Proof.
  intros Hx Hy Hedge. unfold diffused_weight, interior in *.
  kernel_guards x y width height; (reflexivity || lia).
Qed.

Lemma diffused_total_unit x y width height :
  diffused_total x y width height (of_int 1) = diffused_weight x y width height.
Proof.
  unfold diffused_total, diffused_weight, writes.
  rewrite <- list_fmap_compose. f_equal.
  apply list_fmap_ext. intros _ t [Ht _]%list_elem_of_lookup_2%elem_of_targets.
  revert t Ht. apply Forall_forall. by repeat constructor.
Qed.

(** ** Entries already scanned are final *)

Lemma pixel_coordinates i width height :
  0 < width → 0 ≤ i < width * height →
  0 ≤ i mod width < width ∧ 0 ≤ i / width < height ∧
  i / width * width + i mod width = i.
Proof.
  intros Hw Hi. split; [apply Z.mod_pos_bound; lia|]. split.
  - split; [apply Z.div_pos; lia|]. apply Z.div_lt_upper_bound; lia.
  - rewrite (Z.div_mod i width) at 3 by lia. lia.
Qed.

Lemma gray_before_final img i k :
  0 < img.(width) → 0 ≤ i → i ≤ k ≤ img.(width) * img.(height) →
  get (gray_before img k) i = get (gray_before img i) i.
Proof.
  intros Hw Hi [Hik Hk]. revert Hk.
  replace k with (i + (k - i)) by lia.
  assert (0 ≤ k - i) as Hd by lia. revert Hd. generalize (k - i). clear k Hik.
  intros d Hd. pattern d. apply natlike_ind; [| |done].
  - intros _. by rewrite Z.add_0_r.
  - clear d Hd. intros d Hd IH Hk. rewrite <- Z.add_1_r, Z.add_assoc.
    rewrite gray_before_succ by lia.
    destruct (pixel_coordinates (i + d) img.(width) img.(height))
      as (Hx & Hy & Hxy); [done|lia|].
    rewrite distribute_earlier by (done || lia). apply IH. lia.
Qed.

(** ** The luminance ignores alpha *)

Lemma gray_of_ext d d' i :
  (∀ c, 0 ≤ c < 3 → get d (i * 4 + c) = get d' (i * 4 + c)) →
  gray_of d i = gray_of d' i.
Proof.
  intros Hrgb. unfold gray_of, byte_at.
  rewrite <- (Z.add_0_r (i * 4)) at 1 4.
  by rewrite !Hrgb by lia.
Qed.

Lemma to_grayscale_ext width height d d' :
  (∀ i c, 0 ≤ i < width * height → 0 ≤ c < 3 →
          get d (i * 4 + c) = get d' (i * 4 + c)) →
  to_grayscale width height d = to_grayscale width height d'.
Proof.
  intros Hrgb. apply get_ext.
  - by rewrite !length_to_grayscale.
  - intros i. rewrite length_to_grayscale. intros Hi.
    rewrite !get_to_grayscale by lia. do 2 f_equal.
    apply gray_of_ext. intros c Hc. apply Hrgb; lia.
Qed.

Lemma process_alpha_independent L img img' :
  valid img → valid img' →
  img'.(width) = img.(width) → img'.(height) = img.(height) →
  (∀ i c, 0 ≤ i < img.(width) * img.(height) → 0 ≤ c < 3 →
          get img'.(data) (i * 4 + c) = get img.(data) (i * 4 + c)) →
  process L img' = process L img.
Proof.
  intros (Hw & Hh & Hlen) (Hw' & Hh' & Hlen') Ew Eh Hrgb.
  rewrite !process_Return by lia. rewrite Ew, Eh in *.
  rewrite (to_grayscale_ext _ _ img'.(data) img.(data)) by done.
  do 2 f_equal. apply get_ext.
  { rewrite !length_scan_prefix_data by done. lia. }
  intros j. rewrite length_scan_prefix_data by done. intros Hj.
  rewrite (Z.div_mod j 4) by lia. rewrite (Z.mul_comm 4).
  pose proof (Z.mod_pos_bound j 4) as Hc.
  assert (0 ≤ j / 4 < img.(width) * img.(height)) as Hi.
  { split; [apply Z.div_pos; lia|]. apply Z.div_lt_upper_bound; lia. }
  destruct (decide (j mod 4 = 3)) as [->|Hne].
  - by rewrite !scan_prefix_data_alpha by lia.
  - by rewrite !scan_prefix_data_rgb by lia.
Qed.

(** ** A black image *)

Lemma f32_add_zero n i v :
  fround (add (of_int 0) v) = of_int 0 →
  f32_add (replicate n (of_int 0)) i v = replicate n (of_int 0).
Proof.
  intros Hv. unfold f32_add, f32_set, f32_get.
  destruct (decide (0 ≤ i < Z.of_nat n)) as [Hi|Hi].
  - unfold get, set. destruct (Z.leb_spec 0 i); [|lia].
    rewrite lookup_replicate_2 by lia.
    change (to_number (Some (of_int 0))) with (of_int 0). rewrite Hv.
    apply list_insert_id, lookup_replicate_2. lia.
  - apply set_out_of_range. rewrite length_replicate. lia.
Qed.

Lemma apply_writes_zero n ws :
  Forall (λ w, fround (add (of_int 0) w.2) = of_int 0) ws →
  apply_writes (replicate n (of_int 0)) ws = replicate n (of_int 0).
Proof.
  induction 1 as [|w ws Hw _ IH]; [done|].
  cbn. rewrite f32_add_zero by done. apply IH.
Qed.

Lemma gray_step_zero width height i :
  0 < width → 0 ≤ i < width * height →
  gray_step width height (replicate (Z.to_nat (width * height)) (of_int 0)) i
  = replicate (Z.to_nat (width * height)) (of_int 0).
Proof.
  intros Hw Hi. unfold gray_step.
  destruct (pixel_coordinates i width height) as (Hx & Hy & _); [done..|].
  rewrite distribute_writes by done.
  apply apply_writes_zero, Forall_forall.
  intros [j v] (t & Ht & _ & _ & _ & Hv)%elem_of_writes.
  unfold f32_get, get in Hv. destruct (Z.leb_spec 0 i); [|lia].
  rewrite lookup_replicate_2 in Hv by lia. cbn in Hv. subst v. cbn.
  revert t Ht. apply Forall_forall. by repeat constructor.
Qed.

Lemma for_range_gray_step_zero width height k :
  0 < width → 0 ≤ k ≤ width * height →
  for_range k (gray_step width height)
    (replicate (Z.to_nat (width * height)) (of_int 0))
  = replicate (Z.to_nat (width * height)) (of_int 0).
Proof.
  intros Hw [Hk Hle]. revert Hle. pattern k. apply natlike_ind; [| |done].
  - done.
  - intros n Hn IH Hle. rewrite <- Z.add_1_r, for_range_succ by done.
    rewrite IH by lia. apply gray_step_zero; lia.
Qed.

Lemma gray_of_black d i :
  get d (i * 4) = Some 0 → get d (i * 4 + 1) = Some 0 →
  get d (i * 4 + 2) = Some 0 →
  fround (gray_of d i) = of_int 0.
Proof.
  intros Hr Hg Hb. unfold gray_of, byte_at. by rewrite Hr, Hg, Hb.
Qed.

Lemma to_grayscale_black width height d :
  0 ≤ width * height →
  (∀ i, 0 ≤ i < width * height → ∃ a, pixel d i = [Some 0; Some 0; Some 0; a]) →
  to_grayscale width height d = replicate (Z.to_nat (width * height)) (of_int 0).
Proof.
  intros Hn Hblack. apply get_ext.
  - by rewrite length_to_grayscale, length_replicate.
  - intros i. rewrite length_to_grayscale. intros Hi.
    rewrite get_to_grayscale by lia.
    destruct (Hblack i) as [a [= Hr Hg Hb _]]; [lia|].
    rewrite gray_of_black by done.
    unfold get. destruct (Z.leb_spec 0 i); [|lia].
    symmetry. apply lookup_replicate_2. lia.
Qed.

(** ** Multiplication by a weight: no underflow on ordinary errors *)

Lemma digits2_pos_size p : digits2_pos p = Pos.size p.
Proof. induction p as [p IH|p IH|]; cbn; by rewrite ?IH. Qed.

Lemma digits2_pos_bounds p :
  2 ^ (Zpos (digits2_pos p) - 1) ≤ Zpos p < 2 ^ Zpos (digits2_pos p).
Proof.
  rewrite digits2_pos_size.
  pose proof (Pos.size_gt p) as Hgt. pose proof (Pos.size_le p) as Hle.
  apply Pos2Z.pos_lt_pos in Hgt. apply Pos2Z.pos_le_pos in Hle.
  rewrite Pos2Z.inj_pow in Hgt, Hle.
  replace (Zpos (Pos.size p)) with (Z.succ (Zpos (Pos.size p) - 1)) in Hle at 1 by lia.
  rewrite Z.pow_succ_r in Hle by lia. lia.
Qed.

Lemma digits2_pos_unique p d :
  0 < d → 2 ^ (d - 1) ≤ Zpos p < 2 ^ d → Zpos (digits2_pos p) = d.
Proof.
  intros Hd [Hlo Hhi]. pose proof (digits2_pos_bounds p) as [Hlo' Hhi'].
  destruct (Z.lt_trichotomy (Zpos (digits2_pos p)) d) as [Hlt|[Heq|Hgt]]; [|done|].
  - assert (2 ^ Zpos (digits2_pos p) ≤ 2 ^ (d - 1))
      by (apply Z.pow_le_mono_r; lia). lia.
  - assert (2 ^ d ≤ 2 ^ (Zpos (digits2_pos p) - 1))
      by (apply Z.pow_le_mono_r; lia). lia.
Qed.

Lemma shr_m_shr_1 mrs : 0 ≤ shr_m mrs → shr_m (shr_1 mrs) = Z.div2 (shr_m mrs).
Proof. destruct mrs as [[|[p|p|]|p] r s]; cbn; (done || lia). Qed.

Lemma shr_m_iter n mrs :
  0 ≤ shr_m mrs →
  shr_m (SpecFloat.iter_pos shr_1 n mrs) = Z.shiftr (shr_m mrs) (Zpos n).
Proof.
  revert mrs. induction n as [n IH|n IH|]; intros mrs Hm; cbn [SpecFloat.iter_pos].
  - assert (0 ≤ shr_m (shr_1 mrs)) as H1
      by (rewrite shr_m_shr_1 by done; rewrite Z.div2_div; apply Z.div_pos; lia).
    assert (0 ≤ shr_m (SpecFloat.iter_pos shr_1 n (shr_1 mrs))) as H2
      by (rewrite IH by done; apply Z.shiftr_nonneg; done).
    rewrite IH, IH, shr_m_shr_1 by done.
    rewrite Z.div2_spec, !Z.shiftr_shiftr by lia. f_equal. lia.
  - assert (0 ≤ shr_m (SpecFloat.iter_pos shr_1 n mrs)) as H2
      by (rewrite IH by done; apply Z.shiftr_nonneg; done).
    rewrite IH, IH by done. rewrite Z.shiftr_shiftr by lia. f_equal. lia.
  - rewrite shr_m_shr_1 by done. apply Z.div2_spec.
Qed.

Lemma shr_fexp_shift m e l n :
  fexp prec64 emax64 (Zdigits2 m + e) - e = Zpos n →
  shr_fexp prec64 emax64 m e l
  = (SpecFloat.iter_pos shr_1 n (shr_record_of_loc m l), e + Zpos n).
Proof. intros Hn. unfold shr_fexp, shr. by rewrite Hn. Qed.

Lemma shr_fexp_none m e l :
  fexp prec64 emax64 (Zdigits2 m + e) - e = 0 →
  shr_fexp prec64 emax64 m e l = (shr_record_of_loc m l, e).
Proof. intros Hn. unfold shr_fexp, shr. by rewrite Hn. Qed.

Lemma shr_m_record_of_loc m l : shr_m (shr_record_of_loc m l) = m.
Proof. by destruct l as [|[]]. Qed.

(** The rounding of a mantissa of [53 + n] digits, [n] being 52 or 53, at an
    exponent well inside the range: the result is finite and not zero. *)
Lemma binary_round_aux_finite s p e :
  105 ≤ Zpos (digits2_pos p) ≤ 106 → -1126 ≤ e ≤ 917 →
  ∃ m' e', binary_round_aux prec64 emax64 s (Zpos p) e loc_Exact
           = S754_finite s m' e'.
Proof.
  intros Hd He. pose proof (digits2_pos_bounds p) as Hp.
  set (d := Zpos (digits2_pos p)) in *.
  assert (∃ n, Zpos n = d - 53) as [n Hn] by (exists (Z.to_pos (d - 53)); lia).
  unfold binary_round_aux.
  rewrite (shr_fexp_shift _ _ _ n)
    by (unfold fexp, emin, prec64, emax64; cbn [Zdigits2]; fold d; lia).
  set (mrs := SpecFloat.iter_pos shr_1 n (shr_record_of_loc (Zpos p) loc_Exact)).
  assert (shr_m mrs = Zpos p / 2 ^ Zpos n) as Hm.
  { unfold mrs. rewrite shr_m_iter by (rewrite shr_m_record_of_loc; lia).
    rewrite shr_m_record_of_loc. apply Z.shiftr_div_pow2. lia. }
  assert (2 ^ 52 ≤ shr_m mrs < 2 ^ 53) as Hm1.
  { rewrite Hm, Hn. split.
    - apply Z.div_le_lower_bound; [apply Z.pow_pos_nonneg; lia|].
      rewrite <- Z.pow_add_r by lia. replace (d - 53 + 52) with (d - 1) by lia. lia.
    - apply Z.div_lt_upper_bound; [apply Z.pow_pos_nonneg; lia|].
      rewrite <- Z.pow_add_r by lia. replace (d - 53 + 53) with d by lia. lia. }
  set (m2 := round_nearest_even (shr_m mrs) (loc_of_shr_record mrs)).
  assert (2 ^ 52 ≤ m2 ≤ 2 ^ 53) as Hm2.
  { unfold m2, round_nearest_even.
    destruct (loc_of_shr_record mrs) as [|[]]; try destruct (Z.even _); lia. }
  clearbody m2. destruct m2 as [|p2|p2]; [lia| |lia].
  destruct (decide (Zpos p2 = 2 ^ 53)) as [Heq|Hne].
  - assert (Zpos (digits2_pos p2) = 54) as Hd2
      by (apply digits2_pos_unique; [lia|]; change (54 - 1) with 53; lia).
    rewrite (shr_fexp_shift _ _ _ 1)
      by (unfold fexp, emin, prec64, emax64; cbn [Zdigits2]; rewrite Hd2; lia).
    cbv beta iota.
    rewrite shr_m_iter by (rewrite shr_m_record_of_loc; lia).
    rewrite shr_m_record_of_loc, Heq.
    change (Z.shiftr (2 ^ 53) 1) with (Zpos (2 ^ 52)).
    change (emax64 - prec64) with 971.
    destruct (Z.leb_spec (e + Zpos n + 1) 971) as [_|Hbig]; [by eexists _, _|lia].
  - assert (Zpos (digits2_pos p2) = 53) as Hd2
      by (apply digits2_pos_unique; [lia|]; change (53 - 1) with 52; lia).
    rewrite shr_fexp_none
      by (unfold fexp, emin, prec64, emax64; cbn [Zdigits2]; rewrite Hd2; lia).
    cbv beta iota. rewrite shr_m_record_of_loc.
    change (emax64 - prec64) with 971.
    destruct (Z.leb_spec (e + Zpos n) 971) as [_|Hbig]; [by eexists _, _|lia].
Qed.

Lemma mul_weight_finite s m e t :
  t ∈ kernel_table → normal (S754_finite s m e) →
  ∃ m' e', mul (S754_finite s m e) t.2 = S754_finite s m' e'.
Proof.
  intros Ht [Hd He]. pose proof (digits2_pos_bounds m) as Hm.
  rewrite Hd in Hm. change (53 - 1) with 52 in Hm.
  revert t Ht. apply Forall_forall.
  repeat constructor; cbn [snd];
    match goal with
    | |- context [mul _ ?w] =>
        let w' := eval vm_compute in w in change w with w'
    end;
    unfold mul, SFmul; rewrite xorb_false_r;
    (apply binary_round_aux_finite; [|lia]);
    match goal with
    | |- _ ≤ Zpos (digits2_pos ?p) ≤ _ =>
        pose proof (digits2_pos_bounds p) as Hp;
        rewrite Pos2Z.inj_mul in Hp;
        assert (104 < Zpos (digits2_pos p))
          by (apply (Z.pow_lt_mono_r_iff 2); lia);
        assert (Zpos (digits2_pos p) - 1 < 106)
          by (apply (Z.pow_lt_mono_r_iff 2); lia);
        lia
    end.
Qed.

(** ** Totals of diffused error *)

Lemma toQ_finite_pos m e : (0 < toQ (S754_finite false m e))%Q.
Proof.
  unfold toQ, cond_Zopp. apply Qmult_lt_0_compat; [reflexivity|].
  by apply Qpower_0_lt.
Qed.

Lemma toQ_finite_neg m e :
  (toQ (S754_finite true m e) == - toQ (S754_finite false m e))%Q.
Proof.
  unfold toQ, cond_Zopp. change (- Zpos m) with (Zneg m).
  generalize (Qpower 2 e). intros q. unfold Qeq, Qmult, Qopp. cbn. lia.
Qed.

Lemma Qsum_nonneg {A} (f : A → Q) (l : list A) :
  (∀ a, a ∈ l → 0 < f a)%Q → (0 <= Qsum (f <$> l))%Q.
Proof.
  induction l as [|a l IH]; intros Hpos; cbn; [apply Qle_refl|].
  apply Qle_trans with (0 + 0)%Q; [apply Qle_refl|].
  apply Qplus_le_compat.
  - apply Qlt_le_weak, Hpos. left.
  - apply IH. intros b Hb. apply Hpos. by right.
Qed.

Lemma Qsum_filter_le {A} (f : A → Q) (p : A → bool) (l : list A) :
  (∀ a, a ∈ l → 0 < f a)%Q →
  (Qsum (f <$> List.filter p l) <= Qsum (f <$> l))%Q.
Proof.
  induction l as [|a l IH]; intros Hpos; [apply Qle_refl|].
  assert (∀ c, c ∈ l → 0 < f c)%Q as Hpos' by (intros c Hc; apply Hpos; by right).
  specialize (IH Hpos'). pose proof (Hpos a ltac:(left)) as Ha.
  cbn [List.filter]. destruct (p a); cbn [fmap list_fmap Qsum foldr];
    fold (Qsum (f <$> List.filter p l)); fold (Qsum (f <$> l)); lra.
Qed.

(** Leaving out an entry makes a sum of positive amounts strictly smaller. *)
Lemma Qsum_filter_lt {A} (f : A → Q) (p : A → bool) (l : list A) :
  (∀ a, a ∈ l → 0 < f a)%Q → (∃ a, a ∈ l ∧ p a = false) →
  (Qsum (f <$> List.filter p l) < Qsum (f <$> l))%Q.
Proof.
  induction l as [|a l IH]; intros Hpos (b & Hb & Hpb).
  { by apply elem_of_nil in Hb. }
  assert (∀ c, c ∈ l → 0 < f c)%Q as Hpos' by (intros c Hc; apply Hpos; by right).
  pose proof (Qsum_filter_le f p l Hpos') as Hle.
  pose proof (Hpos a ltac:(left)) as Ha.
  cbn [List.filter]. destruct (p a) eqn:Hpa; cbn [fmap list_fmap Qsum foldr];
    fold (Qsum (f <$> List.filter p l)); fold (Qsum (f <$> l)); [|lra].
  apply elem_of_cons in Hb as [->|Hb]; [congruence|].
  assert (Qsum (f <$> List.filter p l) < Qsum (f <$> l))%Q
    by (apply IH; [done|by exists b]).
  lra.
Qed.

Lemma Qsum_opp {A} (f : A → Q) (l : list A) :
  (Qsum ((λ a, - f a) <$> l) == - Qsum (f <$> l))%Q.
Proof.
  induction l as [|a l IH]; cbn; [reflexivity|].
  fold (Qsum ((λ a, - f a)%Q <$> l)). fold (Qsum (f <$> l)).
  rewrite IH. ring.
Qed.

Lemma Qsum_ext {A} (f f' : A → Q) (l : list A) :
  (∀ a, a ∈ l → f a == f' a)%Q → (Qsum (f <$> l) == Qsum (f' <$> l))%Q.
Proof.
  induction l as [|a l IH]; intros Hext; cbn; [reflexivity|].
  fold (Qsum (f <$> l)). fold (Qsum (f' <$> l)).
  rewrite IH by (intros b Hb; apply Hext; by right).
  rewrite (Hext a) by left. reflexivity.
Qed.

Lemma Qsum_scale {A} (q : Q) (f : A → Q) (l : list A) :
  (Qsum ((λ a, q * f a) <$> l) == q * Qsum (f <$> l))%Q.
Proof.
  induction l as [|a l IH]; cbn; [ring|].
  fold (Qsum ((λ a, q * f a)%Q <$> l)). fold (Qsum (f <$> l)).
  rewrite IH. ring.
Qed.

Lemma diffused_total_targets x y w h error :
  diffused_total x y w h error
  = Qsum ((λ t, toQ (mul error t.2)) <$> targets x y w h).
Proof. unfold diffused_total, writes. by rewrite <- list_fmap_compose. Qed.

Lemma some_target_out_of_bounds x y w h :
  0 ≤ x < w → 0 ≤ y < h → ¬ interior x y w h →
  ∃ t, t ∈ kernel_table ∧ in_bounds w h (x + t.1.2) (y + t.1.1) = false.
Proof.
  intros Hx Hy Hedge. unfold interior in Hedge.
  assert (x < 2 ∨ w ≤ x + 3 ∨ h ≤ y + 2) as [H|[H|H]] by lia.
  - exists (1, -2, div (of_int 2) (of_int 32)). split.
    + unfold kernel_table. rewrite !elem_of_cons. tauto.
    + apply not_true_is_false. rewrite in_bounds_spec. cbn. lia.
  - exists (0, 3, div (of_int 3) (of_int 32)). split.
    + unfold kernel_table. rewrite !elem_of_cons. tauto.
    + apply not_true_is_false. rewrite in_bounds_spec. cbn. lia.
  - exists (2, 0, div (of_int 3) (of_int 32)). split.
    + unfold kernel_table. rewrite !elem_of_cons. tauto.
    + apply not_true_is_false. rewrite in_bounds_spec. cbn. lia.
Qed.

(** For an ordinary error of either sign, the total diffused from a pixel with
    a target out of bounds is smaller in magnitude than the total diffused
    from an interior pixel, and of the same sign. *)
Lemma diffused_total_edge x y w h x' y' w' h' error :
  normal error → 0 ≤ x < w → 0 ≤ y < h →
  ¬ interior x y w h → interior x' y' w' h' →
  (Qabs (diffused_total x y w h error)
   < Qabs (diffused_total x' y' w' h' error))%Q ∧
  (0 < toQ error → diffused_total x y w h error
                   < diffused_total x' y' w' h' error)%Q.
Proof.
  intros Hn Hx Hy Hedge Hint.
  rewrite !diffused_total_targets, (targets_interior x' y' w' h') by done.
  unfold targets.
  set (p := λ t : Z * Z * num, in_bounds w h (x + t.1.2) (y + t.1.1)).
  pose proof (some_target_out_of_bounds x y w h Hx Hy Hedge) as Hout.
  destruct error as [| | |s m e]; try done.
  destruct s.
  - (* a negative error *)
    set (f := λ t : Z * Z * num, toQ (mul (S754_finite true m e) t.2)).
    assert (∀ t, t ∈ kernel_table → 0 < - f t)%Q as Hpos.
    { intros t Ht. destruct (mul_weight_finite true m e t Ht Hn) as (m' & e' & Hm).
      unfold f. rewrite Hm, toQ_finite_neg, Qopp_involutive.
      apply toQ_finite_pos. }
    pose proof (Qsum_filter_lt (λ t, - f t)%Q p kernel_table Hpos Hout) as Hlt.
    assert (0 <= Qsum ((λ t, - f t)%Q <$> List.filter p kernel_table))%Q as Hge.
    { apply Qsum_nonneg. intros t Ht%list_elem_of_In%filter_In.
      apply Hpos, list_elem_of_In. tauto. }
    rewrite !Qsum_opp in Hlt. rewrite Qsum_opp in Hge.
    revert Hlt Hge. generalize (Qsum (f <$> List.filter p kernel_table)).
    generalize (Qsum (f <$> kernel_table)). intros b a Hlt Hge.
    split.
    + rewrite !Qabs_neg by lra. done.
    + intros Hs. exfalso. rewrite toQ_finite_neg in Hs.
      pose proof (toQ_finite_pos m e). lra.
  - (* a positive error *)
    set (f := λ t : Z * Z * num, toQ (mul (S754_finite false m e) t.2)).
    assert (∀ t, t ∈ kernel_table → 0 < f t)%Q as Hpos.
    { intros t Ht. destruct (mul_weight_finite false m e t Ht Hn) as (m' & e' & Hm).
      unfold f. rewrite Hm. apply toQ_finite_pos. }
    pose proof (Qsum_filter_lt f p kernel_table Hpos Hout) as Hlt.
    assert (0 <= Qsum (f <$> List.filter p kernel_table))%Q as Hge.
    { apply Qsum_nonneg. intros t Ht%list_elem_of_In%filter_In.
      apply Hpos, list_elem_of_In. tauto. }
    revert Hlt Hge. generalize (Qsum (f <$> List.filter p kernel_table)).
    generalize (Qsum (f <$> kernel_table)). intros b a Hlt Hge.
    split; [|done]. rewrite !Qabs_pos by lra. done.
Qed.

(** An error of zero diffuses nothing. *)
Lemma diffused_total_zero x y w h :
  (diffused_total x y w h (of_int 0) == 0)%Q.
Proof.
  rewrite diffused_total_targets.
  rewrite (Qsum_ext _ (λ _, 0 * 0)%Q).
  - rewrite (Qsum_scale 0 (λ _, 0%Q)). ring.
  - intros t [Ht _]%elem_of_targets. revert t Ht. apply Forall_forall.
    by repeat constructor.
Qed.


(** ** The properties of the engine *)

(** C1: the pixels are processed in row-major order ([dither] is the scan over
    the row-major index); at each pixel the engine reads [oldPixel] from the
    working copy as the earlier pixels left it, takes [newPixel] to be 0 when
    [oldPixel < 60] and 255 otherwise, diffuses [oldPixel - newPixel], and
    leaves the pixel opaque black when [newPixel] is 0 and transparent black
    otherwise. *)
Theorem process_classifies_each_pixel L img :
  valid img →
  let w := img.(width) in
  let h := img.(height) in
  let st0 := (img.(data), to_grayscale w h img.(data)) in
  dither w h st0 = scan_prefix w h st0 (w * h) ∧
  ltb (of_int 60) (of_int 60) = false ∧
  ∃ out, process L img = Return out ∧
    ∀ i, 0 ≤ i < w * h →
      let oldPixel := f32_get (gray_before img i) i in
      let newPixel := if ltb oldPixel (of_int 60) then of_int 0 else of_int 255 in
      let error := sub oldPixel newPixel in
      (scan_prefix w h st0 i).2 = gray_before img i ∧
      (scan_prefix w h st0 (i + 1)).2
      = distributeErrorGrayscale (gray_before img i) (i mod w) (i / w) w h error ∧
      pixel out.(data) i
      = if ltb oldPixel (of_int 60) then opaque_black else transparent.
Proof.
  intros Hv w h st0. pose proof Hv as (Hw & Hh & Hlen).
  split; [by apply dither_row_major|]. split; [reflexivity|].
  destruct (process_valid L img Hv) as (out & Hout & _ & _ & _ & Hpix).
  exists out. split; [done|]. intros i Hi. cbn zeta.
  split; [apply scan_prefix_gray; lia|].
  split.
  - unfold st0, w, h. rewrite scan_prefix_gray by lia.
    by rewrite gray_before_succ by lia.
  - rewrite Hpix by done. unfold alpha_of.
    by destruct (ltb _ _).
Qed.

Lemma process_classifies_each_pixel_witness :
  valid img_tens ∧
  ∃ out, process sample_limit img_tens = Return out ∧
    ∀ i, 0 ≤ i < 4 * 1 →
      pixel out.(data) i
      = if ltb (f32_get (gray_before img_tens i) i) (of_int 60)
        then opaque_black else transparent.
Proof.
  assert (valid img_tens) as Hv by (unfold valid; cbn; lia).
  split; [exact Hv|].
  destruct (process_classifies_each_pixel sample_limit img_tens Hv)
    as (_ & _ & out & Hout & Hpix).
  exists out. split; [exact Hout|]. intros i Hi. apply (Hpix i Hi).
Defined.

(** C2: seen from a pixel of the image, the diffusion step adds
    [error * weight] to the working copy at the ten offsets of the table
    (row 0: +2 and +3; row 1: -2 to +2; row 2: -1 to +1, with weights 5, 3,
    2, 4, 5, 4, 2, 2, 3, 2 over 32), at each of them that is an entry of the
    buffer, and changes no other entry. *)
Theorem diffusion_uses_the_ten_offsets g x y w h error :
  0 ≤ x < w → 0 ≤ y < h → Z.of_nat (length g) = w * h →
  let g' := distributeErrorGrayscale g x y w h error in
  kernel_table.*1
  = [(0, 2); (0, 3); (1, -2); (1, -1); (1, 0); (1, 1); (1, 2);
     (2, -1); (2, 0); (2, 1)] ∧
  Forall2 (λ t q, toQ t.2 == q)%Q kernel_table
    [5 # 32; 3 # 32; 2 # 32; 4 # 32; 5 # 32; 4 # 32; 2 # 32;
     2 # 32; 3 # 32; 2 # 32]%Q ∧
  (∀ dy dx weight, (dy, dx, weight) ∈ kernel_table →
     0 ≤ x + dx < w → 0 ≤ y + dy < h →
     get g' ((y + dy) * w + (x + dx))
     = Some (fround (add (f32_get g ((y + dy) * w + (x + dx)))
                         (mul error weight)))) ∧
  (∀ j, (∀ dy dx weight, (dy, dx, weight) ∈ kernel_table →
           0 ≤ x + dx < w → 0 ≤ y + dy < h → j ≠ (y + dy) * w + (x + dx)) →
        get g' j = get g j).
Proof.
  intros Hx Hy Hlen g'. split; [reflexivity|]. split; [apply kernel_table_exact|].
  split.
  - intros dy dx weight Ht Hdx Hdy.
    by apply (distribute_target g x y w h error (dy, dx, weight)).
  - intros j Hj. apply distribute_elsewhere; [done..|].
    intros [[dy dx] weight]. apply Hj.
Qed.

Lemma diffusion_uses_the_ten_offsets_witness :
  (0 ≤ 2 < 6 ∧ 0 ≤ 0 < 3 ∧ Z.of_nat (length gray_black_6x3) = 6 * 3) ∧
  get (distributeErrorGrayscale gray_black_6x3 2 0 6 3 (of_int 1))
      ((0 + 0) * 6 + (2 + 2))
  = Some (fround (add (f32_get gray_black_6x3 ((0 + 0) * 6 + (2 + 2)))
                      (mul (of_int 1) (div (of_int 5) (of_int 32))))).
Proof.
  split; [cbn; lia|].
  destruct (diffusion_uses_the_ten_offsets gray_black_6x3 2 0 6 3 (of_int 1))
    as (_ & _ & Hadd & _); [lia | lia | reflexivity |].
  apply (Hadd 0 2); [apply list_elem_of_here | lia | lia].
Defined.

(** C3: on a valid input the result has the width, the height and the byte
    length of the input, and every pixel of it has R = G = B = 0 and an alpha
    of 0 or 255. *)
Theorem process_shape_and_stencil L img :
  valid img →
  ∃ out, process L img = Return out ∧
    out.(width) = img.(width) ∧ out.(height) = img.(height) ∧
    length out.(data) = length img.(data) ∧
    ∀ i, 0 ≤ i < img.(width) * img.(height) →
      ∃ a, pixel out.(data) i = [Some 0; Some 0; Some 0; Some a] ∧
           (a = 0 ∨ a = 255).
Proof.
  intros Hv. destruct (process_valid L img Hv) as (out & Hout & Hw & Hh & Hl & Hpix).
  exists out. do 4 (split; [done|]). intros i Hi. eexists. split; [by apply Hpix|].
  unfold alpha_of. destruct (ltb _ _); auto.
Qed.

Lemma process_shape_and_stencil_witness :
  valid img_dependent ∧
  ∃ out, process sample_limit img_dependent = Return out ∧
    out.(width) = 3 ∧ out.(height) = 1 ∧
    length out.(data) = 12%nat ∧
    ∀ i, 0 ≤ i < 3 * 1 →
      ∃ a, pixel out.(data) i = [Some 0; Some 0; Some 0; Some a] ∧
           (a = 0 ∨ a = 255).
Proof.
  split; [unfold valid; cbn; lia|].
  apply (process_shape_and_stencil sample_limit img_dependent). unfold valid; cbn; lia.
Defined.

(** C4, the claim as it stands fails: the working copy is a [Float32Array],
    so the entry is the luminance expression rounded to single precision.
    For the pixel (15, 87, 39) the expression is below 60, the entry is 60,
    and the pixel comes out transparent. *)
Lemma grayscale_entry_is_rounded :
  valid img_rounded ∧
  get (to_grayscale 1 1 img_rounded.(data)) 0 = Some (of_int 60) ∧
  ltb (gray_of img_rounded.(data) 0) (of_int 60) = true ∧
  get (to_grayscale 1 1 img_rounded.(data)) 0
  ≠ Some (gray_of img_rounded.(data) 0) ∧
  process sample_limit img_rounded = Return (mkImageData 1 1 [0; 0; 0; 0]).
Proof.
  split; [unfold valid; cbn; lia|].
  split; [by vm_compute|]. split; [by vm_compute|].
  split; by vm_compute.
Qed.

(** C4, amended: for every pixel of a valid input the initial entry of the
    working copy is [0.299*R + 0.587*G + 0.114*B] rounded to single precision;
    alpha is not read, so the result does not depend on the input alphas;
    and the whole working copy is built before the dithering scan starts. *)
Theorem grayscale_is_rounded_luminance L img :
  valid img →
  let w := img.(width) in
  let h := img.(height) in
  Z.of_nat (length (to_grayscale w h img.(data))) = w * h ∧
  (∀ i, 0 ≤ i < w * h →
     get (to_grayscale w h img.(data)) i
     = Some (fround
         (add (add (mul (decimal 299 1000) (byte_at img.(data) (i * 4)))
                   (mul (decimal 587 1000) (byte_at img.(data) (i * 4 + 1))))
              (mul (decimal 114 1000) (byte_at img.(data) (i * 4 + 2)))))) ∧
  process L img
  = Return (mkImageData w h
      (dither w h (img.(data), to_grayscale w h img.(data))).1) ∧
  (∀ img', valid img' → img'.(width) = w → img'.(height) = h →
     (∀ i c, 0 ≤ i < w * h → 0 ≤ c < 3 →
        get img'.(data) (i * 4 + c) = get img.(data) (i * 4 + c)) →
     process L img' = process L img).
Proof.
  intros Hv w h. pose proof Hv as (Hw & Hh & Hlen).
  split; [rewrite length_to_grayscale; fold w h; nia|].
  split; [intros i Hi; by apply get_to_grayscale|]. split.
  - rewrite process_Return by lia. by rewrite dither_row_major.
  - intros img' Hv' Ew Eh Hrgb. by apply process_alpha_independent.
Qed.

Lemma grayscale_is_rounded_luminance_witness :
  valid img_rounded ∧
  get (to_grayscale 1 1 img_rounded.(data)) 0
  = Some (fround
      (add (add (mul (decimal 299 1000) (byte_at img_rounded.(data) (0 * 4)))
                (mul (decimal 587 1000) (byte_at img_rounded.(data) (0 * 4 + 1))))
           (mul (decimal 114 1000) (byte_at img_rounded.(data) (0 * 4 + 2))))).
Proof.
  assert (valid img_rounded) as Hv by (unfold valid; cbn; lia).
  split; [exact Hv|].
  destruct (grayscale_is_rounded_luminance sample_limit img_rounded Hv) as (_ & Hget & _).
  apply (Hget 0). cbn. lia.
Defined.

(** C5, the claim as it stands fails in its last part: a black pixel has
    error 0, and then the corner pixel and an interior pixel both diffuse a
    total of 0, so that the one is not strictly less than the other.  (The
    same happens for an error so small that every weighted contribution
    underflows to 0, such as the least positive number, 2^-1074.) *)
Lemma edge_total_not_strictly_less :
  ¬ interior 5 2 6 3 ∧ interior 2 0 6 3 ∧
  error_of (of_int 0) = of_int 0 ∧
  (diffused_total 5 2 6 3 (error_of (of_int 0)) == 0)%Q ∧
  (diffused_total 2 0 6 3 (error_of (of_int 0)) == 0)%Q ∧
  ¬ (Qabs (diffused_total 5 2 6 3 (error_of (of_int 0)))
     < Qabs (diffused_total 2 0 6 3 (error_of (of_int 0))))%Q ∧
  ¬ (diffused_total 5 2 6 3 (error_of (of_int 0))
     < diffused_total 2 0 6 3 (error_of (of_int 0)))%Q ∧
  ¬ (Qabs (diffused_total 5 2 6 3 (S754_finite false 1 (-1074)))
     < Qabs (diffused_total 2 0 6 3 (S754_finite false 1 (-1074))))%Q.
Proof.
  split; [unfold interior; lia|]. split; [unfold interior; lia|].
  split; [reflexivity|]. split; [reflexivity|]. split; [reflexivity|].
  split; [vm_compute; discriminate|]. split; vm_compute; discriminate.
Qed.

(** C5, amended: seen from a pixel of the image, the diffusion step adds a
    weighted error at a target only if the target lies within
    [0, width) x [0, height); the other contributions are dropped, so that
    every write is inside the buffer and only target entries change.  The
    weights applied sum to 1 for an interior pixel and to strictly less than
    1 for a pixel with a target out of bounds.  For every ordinary error
    (non-zero, of magnitude at least 2^-1018) the total diffused from a pixel
    with a target out of bounds is strictly less in magnitude than the total
    diffused from an interior pixel, and strictly less as it stands when the
    error is positive; for an error of 0 both totals are 0. *)
Theorem diffusion_is_clipped_at_the_edges g x y w h error :
  0 ≤ x < w → 0 ≤ y < h → Z.of_nat (length g) = w * h →
  let g' := distributeErrorGrayscale g x y w h error in
  g' = apply_writes g (writes x y w h error) ∧
  length g' = length g ∧
  NoDup (writes x y w h error).*1 ∧
  (∀ i v, (i, v) ∈ writes x y w h error →
     0 ≤ i < w * h ∧
     ∃ dy dx weight, (dy, dx, weight) ∈ kernel_table ∧
       0 ≤ x + dx < w ∧ 0 ≤ y + dy < h ∧
       i = (y + dy) * w + (x + dx) ∧ v = mul error weight) ∧
  (∀ j, get g' j ≠ get g j → ∃ v, (j, v) ∈ writes x y w h error) ∧
  (interior x y w h → diffused_weight x y w h == 1)%Q ∧
  (¬ interior x y w h → diffused_weight x y w h < 1)%Q ∧
  diffused_total x y w h (of_int 1) = diffused_weight x y w h ∧
  (normal error → ¬ interior x y w h →
   ∀ x' y' w' h', interior x' y' w' h' →
     (∀ g0, distributeErrorGrayscale g0 x' y' w' h' error
            = apply_writes g0 (writes x' y' w' h' error)) ∧
     (Qabs (diffused_total x y w h error)
      < Qabs (diffused_total x' y' w' h' error))%Q ∧
     (0 < toQ error →
      diffused_total x y w h error < diffused_total x' y' w' h' error)%Q) ∧
  (∀ x' y' w' h',
     diffused_total x y w h (of_int 0) == 0 ∧
     diffused_total x' y' w' h' (of_int 0) == 0)%Q.
Proof.
  intros Hx Hy Hlen g'. split; [by apply distribute_writes|].
  split; [apply length_distribute|]. split; [apply NoDup_writes|]. split.
  { intros i v Hin. split.
    - pose proof (write_index_later _ _ _ _ _ _ _ Hx Hy Hin). nia.
    - apply elem_of_writes in Hin as ([[dy dx] weight] & Hin).
      exists dy, dx, weight. tauto. }
  split.
  { intros j Hj.
    destruct (decide (j ∈ (writes x y w h error).*1)) as [Hin|Hout].
    - apply list_elem_of_fmap in Hin as ([i v] & -> & Hin). by exists v.
    - exfalso. apply Hj. unfold g'. rewrite distribute_writes by done.
      by apply get_apply_writes_other. }
  split; [apply diffused_weight_interior|].
  split; [by apply diffused_weight_edge|].
  split; [apply diffused_total_unit|].
  split.
  - intros Hn Hedge x' y' w' h' Hint. split.
    + intros g0. apply distribute_writes; unfold interior in Hint; lia.
    + by apply diffused_total_edge.
  - intros x' y' w' h'. split; apply diffused_total_zero.
Qed.

Lemma diffusion_is_clipped_at_the_edges_witness :
  (0 ≤ 5 < 6 ∧ 0 ≤ 2 < 3 ∧ Z.of_nat (length gray_black_6x3) = 6 * 3) ∧
  (normal (error_of (of_int 200)) ∧ ¬ interior 5 2 6 3 ∧ interior 2 0 6 3) ∧
  (diffused_weight 5 2 6 3 < 1)%Q ∧
  distributeErrorGrayscale gray_black_6x3 5 2 6 3 (error_of (of_int 200))
  = apply_writes gray_black_6x3 (writes 5 2 6 3 (error_of (of_int 200))) ∧
  (Qabs (diffused_total 5 2 6 3 (error_of (of_int 200)))
   < Qabs (diffused_total 2 0 6 3 (error_of (of_int 200))))%Q.
Proof.
  assert (¬ interior 5 2 6 3) as Hedge by (unfold interior; lia).
  assert (interior 2 0 6 3) as Hint by (unfold interior; lia).
  assert (normal (error_of (of_int 200))) as Hn 
    by (vm_compute; split; [reflexivity | split; discriminate]).
  split; [cbn; lia|]. split; [split; [exact Hn | split; [exact Hedge | exact Hint]]|].
  destruct (diffusion_is_clipped_at_the_edges gray_black_6x3 5 2 6 3
              (error_of (of_int 200)))
    as (Heq & _ & _ & _ & _ & _ & Hlt & _ & Htotal & _); [lia | lia | reflexivity |].
  split; [exact (Hlt Hedge)|]. split; [exact Heq|].
  exact (proj1 (proj2 (Htotal Hn Hedge 2 0 6 3 Hint))).
Defined.







(** C8: the diffusion from a pixel of the image changes no entry at or before
    that pixel in row-major order; on a valid input the working copy read at
    pixel [i] is the initial one with the diffusion of every earlier pixel
    applied in scan order, the entry read is not changed afterwards, and the
    alpha written is decided by that entry; on the sample image the third
    pixel, of initial luminance 55, comes out transparent. *)
Theorem scan_is_a_single_forward_pass L :
  (∀ g x y w h error j,
     0 ≤ x < w → 0 ≤ y < h → j ≤ y * w + x →
     get (distributeErrorGrayscale g x y w h error) j = get g j) ∧
  (∀ img, valid img →
     let w := img.(width) in
     let h := img.(height) in
     let st0 := (img.(data), to_grayscale w h img.(data)) in
     ∃ out, process L img = Return out ∧
       ∀ i, 0 ≤ i < w * h →
         (scan_prefix w h st0 i).2
         = for_range i (gray_step w h) (to_grayscale w h img.(data)) ∧
         (∀ k, i ≤ k ≤ w * h →
            get (scan_prefix w h st0 k).2 i = get (scan_prefix w h st0 i).2 i) ∧
         get out.(data) (i * 4 + 3)
         = Some (alpha_of (f32_get (scan_prefix w h st0 i).2 i))) ∧
  (∃ out, valid img_dependent ∧ process L img_dependent = Return out ∧
     alpha_of (f32_get (to_grayscale 3 1 img_dependent.(data)) 2) = 255 ∧
     get out.(data) (2 * 4 + 3) = Some 0).
Proof.
  split; [intros; by apply distribute_earlier|]. split.
  - intros img Hv w h st0. pose proof Hv as (Hw & Hh & Hlen).
    destruct (process_valid L img Hv) as (out & Hout & _ & _ & _ & Hpix).
    exists out. split; [done|]. intros i Hi. unfold st0, w, h in *.
    split; [by rewrite scan_prefix_eq by lia|]. split.
    + intros k Hk. rewrite !scan_prefix_gray by lia.
      apply gray_before_final; lia.
    + specialize (Hpix i Hi). injection Hpix as _ _ _ ->.
      by rewrite scan_prefix_gray by lia.
  - eexists. split; [unfold valid; cbn; lia|]. split; [by vm_compute|].
    split; by vm_compute.
Qed.

Lemma scan_is_a_single_forward_pass_witness :
  (0 ≤ 2 < 6 ∧ 0 ≤ 0 < 3 ∧ 2 ≤ 0 * 6 + 2) ∧
  get (distributeErrorGrayscale gray_black_6x3 2 0 6 3 (of_int 1)) 2
  = get gray_black_6x3 2.
Proof.
  split; [lia|].
  destruct (scan_is_a_single_forward_pass sample_limit) as (Hearlier & _ & _).
  apply Hearlier; lia.
Defined.

(** C9, the claim as it stands fails: in a 4x1 image the kernel does write,
    the first pixel adding 10 * 5/32 to the third and 10 * 3/32 to the
    fourth. *)
Lemma error_propagates_in_a_single_row :
  valid img_tens ∧
  to_grayscale 4 1 img_tens.(data) = [ten; ten; ten; ten] ∧
  writes 0 0 4 1 (error_of ten)
  = [(2, mul ten (matrix_at 0 2)); (3, mul ten (matrix_at 0 3))] ∧
  get (gray_before img_tens 0) 2 = Some ten ∧
  get (gray_before img_tens 1) 2 = Some (add ten (mul ten (matrix_at 0 2))) ∧
  get (gray_before img_tens 1) 2 ≠ get (gray_before img_tens 0) 2.
Proof.
  split; [unfold valid; cbn; lia|].
  split; [by vm_compute|]. split; [by vm_compute|]. split; [by vm_compute|].
  split; by vm_compute.
Qed.

(** C9, amended: for a 4x1 image whose four pixels all have luminance 10 the
    result is four opaque black pixels; error does propagate along the row
    (the working copy ends as 10, 10, 11.5625, 12.5), every adjusted
    luminance staying below 60. *)
Theorem four_dark_pixels_in_a_row L d :
  length d = 16%nat →
  to_grayscale 4 1 d = [ten; ten; ten; ten] →
  process L (mkImageData 4 1 d)
  = Return (mkImageData 4 1
      [0; 0; 0; 255; 0; 0; 0; 255; 0; 0; 0; 255; 0; 0; 0; 255]) ∧
  gray_before (mkImageData 4 1 d) 4
  = [ten; ten; decimal 115625 10000; decimal 125 10] ∧
  Forall (λ v, ltb v (of_int 60) = true) (gray_before (mkImageData 4 1 d) 4).
Proof.
  intros Hlen Hgray.
  assert (gray_before (mkImageData 4 1 d) 4
          = [ten; ten; decimal 115625 10000; decimal 125 10]) as Hfinal.
  { unfold gray_before. cbn [width height data]. rewrite Hgray. by vm_compute. }
  split; [|split; [done|]].
  - unfold process. cbn [width height data]. rewrite Hgray.
    do 16 (destruct d as [|? d]; [discriminate Hlen|]).
    destruct d; [|discriminate Hlen]. by vm_compute.
  - rewrite Hfinal. repeat constructor.
Qed.

Lemma four_dark_pixels_in_a_row_witness :
  (length img_tens.(data) = 16%nat ∧
   to_grayscale 4 1 img_tens.(data) = [ten; ten; ten; ten]) ∧
  process sample_limit (mkImageData 4 1 img_tens.(data))
  = Return (mkImageData 4 1
      [0; 0; 0; 255; 0; 0; 0; 255; 0; 0; 0; 255; 0; 0; 0; 255]).
Proof.
  split; [split; [reflexivity | vm_compute; reflexivity]|].
  destruct (four_dark_pixels_in_a_row sample_limit img_tens.(data)) as (Hout & _ & _);
    [reflexivity | vm_compute; reflexivity | exact Hout].
Defined.

(** C10: on a valid input, the first pass leaves R = G = B = 0 everywhere, so
    that on a second pass every luminance is 0 and every pixel comes out
    opaque black; hence the second result differs from the first as soon as
    the first has a transparent pixel. *)
Theorem redithering_yields_all_black L img :
  valid img →
  ∃ out1 out2,
    process L img = Return out1 ∧ process L out1 = Return out2 ∧
    (∀ i, 0 ≤ i < img.(width) * img.(height) →
       fround (gray_of out1.(data) i) = of_int 0 ∧
       pixel out2.(data) i = opaque_black) ∧
    ((∃ i, 0 ≤ i < img.(width) * img.(height) ∧
           pixel out1.(data) i = transparent) →
     out2 ≠ out1).
Proof.
  intros Hv. pose proof Hv as (Hw & Hh & Hlen).
  destruct (process_valid L img Hv) as (out1 & Hout1 & Ew & Eh & El & Hpix1).
  assert (valid out1) as Hv1.
  { unfold valid. rewrite Ew, Eh, El. done. }
  destruct (process_valid L out1 Hv1) as (out2 & Hout2 & _ & _ & _ & Hpix2).
  rewrite Ew, Eh in Hpix2.
  assert (∀ i, 0 ≤ i < img.(width) * img.(height) →
            pixel out2.(data) i = opaque_black) as Hblack.
  { intros i Hi. rewrite Hpix2 by done. unfold gray_before.
    rewrite Ew, Eh. rewrite to_grayscale_black.
    - rewrite for_range_gray_step_zero by lia.
      unfold f32_get, get. destruct (Z.leb_spec 0 i); [|lia].
      rewrite lookup_replicate_2 by lia. reflexivity.
    - lia.
    - intros i' Hi'. rewrite Hpix1 by done. by eexists. }
  exists out1, out2. split; [done|]. split; [done|]. split.
  - intros i Hi. split; [|by apply Hblack].
    specialize (Hpix1 i Hi). injection Hpix1 as Hr Hg Hb _.
    by apply gray_of_black.
  - intros (i & Hi & Htrans) Heq. specialize (Hblack i Hi).
    rewrite Heq, Htrans in Hblack. discriminate Hblack.
Qed.

Lemma redithering_yields_all_black_witness :
  valid img_dependent ∧
  ∃ out1 out2,
    process sample_limit img_dependent = Return out1 ∧
    process sample_limit out1 = Return out2 ∧
    (∀ i, 0 ≤ i < 3 * 1 → pixel out2.(data) i = opaque_black) ∧
    pixel out1.(data) 2 = transparent ∧ out2 ≠ out1.
Proof.
  assert (valid img_dependent) as Hv by (unfold valid; cbn; lia).
  split; [exact Hv|].
  destruct (redithering_yields_all_black sample_limit img_dependent Hv)
    as (out1 & out2 & Hout1 & Hout2 & Hblack & Hdiff).
  exists out1, out2. split; [exact Hout1|]. split; [exact Hout2|].
  split; [intros i Hi; exact (proj2 (Hblack i Hi))|].
  assert (pixel out1.(data) 2 = transparent) as Htrans.
  { assert (Return out1 = process sample_limit img_dependent) as E
      by (symmetry; exact Hout1).
    vm_compute in E. injection E as ->. reflexivity. }
  split; [exact Htrans|].
  apply Hdiff. exists 2. split; [cbn; lia | exact Htrans].
Defined.

(** ** Further properties: inputs of any shape *)

Lemma get_Some_range {A} (a : list A) i v :
  get a i = Some v → 0 ≤ i < Z.of_nat (length a).
Proof.
  unfold get. destruct (Z.leb_spec 0 i); [|done].
  intros Hv%lookup_lt_Some. lia.
Qed.

Lemma get_write_pixel_in d idx a j :
  idx ≤ j < idx + 4 → 0 ≤ j < Z.of_nat (length d) →
  get (write_pixel d idx a) j = Some (if j =? idx + 3 then a else 0).
Proof.
  intros Hj Hlen. unfold write_pixel.
  assert (j = idx ∨ j = idx + 1 ∨ j = idx + 2 ∨ j = idx + 3)
    as [-> | [-> | [-> | ->]]] by lia.
  - rewrite !get_set_ne by lia. rewrite get_set_eq by lia.
    by replace (idx =? idx + 3) with false by lia.
  - rewrite !get_set_ne by lia. rewrite get_set_eq by (rewrite length_set; lia).
    by replace (idx + 1 =? idx + 3) with false by lia.
  - rewrite !get_set_ne by lia. rewrite get_set_eq by (rewrite !length_set; lia).
    by replace (idx + 2 =? idx + 3) with false by lia.
  - rewrite get_set_eq by (rewrite !length_set; lia).
    by rewrite Z.eqb_refl.
Qed.

(** The bytes of the pixels already scanned, whatever the length of the data. *)
Lemma scan_prefix_data_byte width height d g k j :
  0 < width → 0 ≤ k → 0 ≤ j < k * 4 → j < Z.of_nat (length d) →
  ∃ b, get (scan_prefix width height (d, g) k).1 j = Some b ∧
       (b = 0 ∨ b = 255) ∧ (j mod 4 ≠ 3 → b = 0).
Proof.
  intros Hw Hk. revert j. pattern k. apply natlike_ind; [| |done].
  - intros j Hj. lia.
  - clear k Hk. intros k Hk IH j Hj Hlen.
    rewrite <- Z.add_1_r, scan_prefix_succ by done. cbn [fst].
    destruct (decide (j < k * 4)) as [Hlt|Hge].
    + rewrite get_write_pixel_other by lia. apply IH; lia.
    + rewrite get_write_pixel_in
        by (rewrite ?length_scan_prefix_data by done; lia).
      eexists. split; [done|].
      destruct (Z.eqb_spec j (k * 4 + 3)) as [->|Hne].
      * split; [|intros Hm; exfalso; apply Hm;
                  rewrite Z.add_comm, Z_mod_plus_full; done].
        unfold alpha_of. destruct (ltb _ _); auto.
      * auto.
Qed.

Lemma process_empty L img :
  0 ≤ img.(width) * img.(height) →
  img.(width) * img.(height) * 4 ≤ Z.of_nat (length img.(data)) ∨
  (img.(width) * img.(height) * 4 ≤ L ∧ img.(width) * img.(height) ≤ 2 ^ 53 - 1) →
  img.(width) ≤ 0 ∨ img.(height) ≤ 0 →
  process L img = Return img.
Proof.
  intros Hn Halloc Hempty. unfold process.
  rewrite (proj2 (can_allocate_spec _ _ _)) by done.
  rewrite dither_empty by done. by destruct img.
Qed.

(** X1: whenever the working copy can be allocated (width*height is not
    negative and is either no more than the data holds pixels or within the
    2^53 - 1 elements and the byte limit of the engine), the call returns,
    for data of any length; the result has the width, the height and the
    data length of the input, and every byte past the first width*height
    pixels is left as it was. *)
Theorem process_preserves_shape L img :
  0 ≤ img.(width) * img.(height) →
  img.(width) * img.(height) * 4 ≤ Z.of_nat (length img.(data)) ∨
  (img.(width) * img.(height) * 4 ≤ L ∧ img.(width) * img.(height) ≤ 2 ^ 53 - 1) →
  ∃ out, process L img = Return out ∧
    out.(width) = img.(width) ∧ out.(height) = img.(height) ∧
    length out.(data) = length img.(data) ∧
    ∀ j, img.(width) * img.(height) * 4 ≤ j →
         get out.(data) j = get img.(data) j.
Proof.
  intros Hn Halloc.
  destruct (decide (0 < img.(width) ∧ 0 < img.(height))) as [[Hw Hh]|Hempty].
  - eexists. split; [apply process_Return; (done || lia)|].
    cbn [width height data].
    do 2 (split; [done|]). split; [by apply length_scan_prefix_data|].
    intros j Hj. apply scan_prefix_data_later; lia.
  - exists img. split; [apply process_empty; (done || lia)|done].
Qed.

Lemma process_preserves_shape_witness :
  (0 ≤ 1 * 1 ∧
   (1 * 1 * 4 ≤ Z.of_nat (length [9; 9; 9; 9; 5; 6]) ∨
    (1 * 1 * 4 ≤ sample_limit ∧ 1 * 1 ≤ 2 ^ 53 - 1))) ∧
  ∃ out, process sample_limit (mkImageData 1 1 [9; 9; 9; 9; 5; 6]) = Return out ∧
    out.(width) = 1 ∧ out.(height) = 1 ∧
    length out.(data) = 6%nat ∧
    ∀ j, 1 * 1 * 4 ≤ j → get out.(data) j = get [9; 9; 9; 9; 5; 6] j.
Proof.
  split; [cbn; lia|].
  apply (process_preserves_shape sample_limit (mkImageData 1 1 [9; 9; 9; 9; 5; 6]));
    cbn; lia.
Defined.

(** X2: when the dimensions are positive and the working copy can be
    allocated, whatever the length of the data, every byte of the first
    width*height pixels that the data holds is overwritten with 0 or 255,
    and with 0 unless it is an alpha byte. *)
Theorem process_overwrites_every_scanned_byte L img j :
  0 < img.(width) → 0 < img.(height) →
  img.(width) * img.(height) * 4 ≤ Z.of_nat (length img.(data)) ∨
  (img.(width) * img.(height) * 4 ≤ L ∧ img.(width) * img.(height) ≤ 2 ^ 53 - 1) →
  0 ≤ j < img.(width) * img.(height) * 4 → j < Z.of_nat (length img.(data)) →
  ∃ out b, process L img = Return out ∧ get out.(data) j = Some b ∧
    (b = 0 ∨ b = 255) ∧ (j mod 4 ≠ 3 → b = 0).
Proof.
  intros Hw Hh Halloc Hj Hlen. eexists.
  edestruct (scan_prefix_data_byte img.(width) img.(height) img.(data)
               (to_grayscale img.(width) img.(height) img.(data))
               (img.(width) * img.(height)) j) as (b & Hb & Hrange);
    [done | lia | lia | done |].
  exists b. split; [apply process_Return; (done || lia)|]. cbn [data]. done.
Qed.

Lemma process_overwrites_every_scanned_byte_witness :
  (0 < 1 ∧ 0 < 1 ∧
   (1 * 1 * 4 ≤ Z.of_nat (length [9; 9]) ∨
    (1 * 1 * 4 ≤ sample_limit ∧ 1 * 1 ≤ 2 ^ 53 - 1)) ∧
   0 ≤ 1 < 1 * 1 * 4 ∧ 1 < Z.of_nat (length [9; 9])) ∧
  ∃ out b, process sample_limit (mkImageData 1 1 [9; 9]) = Return out ∧
    get out.(data) 1 = Some b ∧ (b = 0 ∨ b = 255) ∧ (1 mod 4 ≠ 3 → b = 0).
Proof.
  split; [unfold sample_limit; cbn; lia|].
  apply (process_overwrites_every_scanned_byte sample_limit
           (mkImageData 1 1 [9; 9]) 1);
    unfold sample_limit; cbn; lia.
Defined.

(** X3: the scan works in place and in order: once [k] pixels are
    processed, the first [k] pixels of the data already are those of the
    result and all the others still are those of the input. *)
Theorem scan_keeps_unscanned_pixels L img k :
  valid img → 0 ≤ k ≤ img.(width) * img.(height) →
  let w := img.(width) in
  let h := img.(height) in
  let st := scan_prefix w h (img.(data), to_grayscale w h img.(data)) k in
  ∃ out, process L img = Return out ∧
    length st.1 = length img.(data) ∧
    (∀ i, 0 ≤ i < k → pixel st.1 i = pixel out.(data) i) ∧
    (∀ i, k ≤ i → pixel st.1 i = pixel img.(data) i).
Proof.
  intros (Hw & Hh & Hlen) Hk w h st.
  eexists. split; [apply process_Return; lia|]. cbn [data].
  split; [by apply length_scan_prefix_data|]. split.
  - intros i Hi. unfold pixel, st, w, h.
    rewrite <- (Z.add_0_r (i * 4)) at 1 5.
    rewrite !(scan_prefix_data_rgb _ _ _ _ k) by lia.
    rewrite !(scan_prefix_data_rgb _ _ _ _ (img.(width) * img.(height))) by lia.
    rewrite (scan_prefix_data_alpha _ _ _ _ k) by lia.
    by rewrite (scan_prefix_data_alpha _ _ _ _ (img.(width) * img.(height))) by lia.
  - intros i Hi. unfold pixel, st, w, h.
    by rewrite !scan_prefix_data_later by lia.
Qed.

Lemma scan_keeps_unscanned_pixels_witness :
  (valid img_tens ∧ 0 ≤ 2 ≤ 4 * 1) ∧
  ∃ out, process sample_limit img_tens = Return out ∧
    ∀ i, 2 ≤ i →
      pixel (scan_prefix 4 1
               (img_tens.(data), to_grayscale 4 1 img_tens.(data)) 2).1 i
      = pixel img_tens.(data) i.
Proof.
  assert (valid img_tens) as Hv by (unfold valid; cbn; lia).
  split; [split; [exact Hv | lia]|].
  destruct (scan_keeps_unscanned_pixels sample_limit img_tens 2 Hv)
    as (out & Hout & _ & _ & Hlater); [cbn; lia|].
  exists out. split; [exact Hout | exact Hlater].
Defined.


(** ** Further properties: where the error goes *)

Lemma diffusion_skips_aux g x y w h error :
  0 ≤ x → x + 1 < w → 0 ≤ y < h →
  get (distributeErrorGrayscale g x y w h error) (y * w + (x + 1))
  = get g (y * w + (x + 1)).
Proof.
  intros Hx Hx' Hy. apply distribute_elsewhere; [lia | done |].
  intros t Ht Htx Hty. pose proof (kernel_table_later _ Ht) as Hl.
  assert (t.1.1 = 0 ∨ t.1.1 = 1 ∨ t.1.1 = 2) as [Hd|[Hd|Hd]] by lia;
    rewrite Hd in *; lia.
Qed.

(** X4: the diffusion from a pixel never touches the pixel immediately to
    its right: in its own row the error goes to the second and third
    neighbours only. *)
Theorem diffusion_skips_the_right_neighbour g x y w h error :
  0 ≤ x → x + 1 < w → 0 ≤ y < h →
  get (distributeErrorGrayscale g x y w h error) (y * w + (x + 1))
  = get g (y * w + (x + 1)) ∧
  ∀ i v, (i, v) ∈ writes x y w h error → i ≠ y * w + (x + 1).
Proof.
  intros Hx Hx' Hy. split; [by apply diffusion_skips_aux|].
  intros i v (t & Ht & Htx & Hty & -> & _)%elem_of_writes.
  pose proof (kernel_table_later _ Ht) as Hl.
  assert (t.1.1 = 0 ∨ t.1.1 = 1 ∨ t.1.1 = 2) as [Hd|[Hd|Hd]] by lia;
    rewrite Hd in *; lia.
Qed.

Lemma diffusion_skips_the_right_neighbour_witness :
  (0 ≤ 2 ∧ 2 + 1 < 6 ∧ 0 ≤ 0 < 3) ∧
  get (distributeErrorGrayscale gray_black_6x3 2 0 6 3 (of_int 1))
      (0 * 6 + (2 + 1))
  = get gray_black_6x3 (0 * 6 + (2 + 1)).
Proof.
  split; [lia|].
  apply (diffusion_skips_the_right_neighbour gray_black_6x3 2 0 6 3 (of_int 1));
    lia.
Defined.


(** X5: the diffusion from a pixel of the image changes no entry at or
    before that pixel, and none more than [2 * width + 1] entries ahead of it
    in row-major order; from an interior pixel it does write the last entry
    of that window, adding 2/32 of the error to it. *)
Theorem diffusion_reaches_two_rows_ahead g x y w h error :
  0 ≤ x < w → 0 ≤ y < h →
  let g' := distributeErrorGrayscale g x y w h error in
  (∀ j, j ≤ y * w + x ∨ y * w + x + 2 * w + 1 < j → get g' j = get g j) ∧
  (interior x y w h → Z.of_nat (length g) = w * h →
   get g' (y * w + x + 2 * w + 1)
   = Some (fround (add (f32_get g (y * w + x + 2 * w + 1))
                       (mul error (matrix_at 2 3))))).
Proof.
  intros Hx Hy g'. split.
  - intros j Hj. apply distribute_elsewhere; [done..|].
    intros t Ht Htx Hty ->. revert Htx Hty Hj. unfold kernel_table in Ht.
    rewrite !elem_of_cons, elem_of_nil in Ht.
    repeat destruct Ht as [->|Ht]; try done; cbn [fst snd]; intros; lia.
  - intros (Hx2 & Hx3 & _ & Hy2) Hlen.
    replace (y * w + x + 2 * w + 1) with ((y + 2) * w + (x + 1)) by lia.
    apply (distribute_target g x y w h error (2, 1, div (of_int 2) (of_int 32)));
      [done | done | done | | cbn; lia | cbn; lia].
    unfold kernel_table. rewrite !elem_of_cons. tauto.
Qed.

Lemma diffusion_reaches_two_rows_ahead_witness :
  (0 ≤ 2 < 6 ∧ 0 ≤ 0 < 3 ∧ interior 2 0 6 3 ∧
   Z.of_nat (length gray_black_6x3) = 6 * 3) ∧
  get (distributeErrorGrayscale gray_black_6x3 2 0 6 3 (of_int 1))
      (0 * 6 + 2 + 2 * 6 + 1)
  = Some (fround (add (f32_get gray_black_6x3 (0 * 6 + 2 + 2 * 6 + 1))
                      (mul (of_int 1) (matrix_at 2 3)))).
Proof.
  assert (interior 2 0 6 3) as Hi by (unfold interior; lia).
  split; [split; [lia | split; [lia | split; [exact Hi | reflexivity]]]|].
  destruct (diffusion_reaches_two_rows_ahead gray_black_6x3 2 0 6 3 (of_int 1))
    as (_ & Hlast); [lia | lia |].
  apply Hlast; [exact Hi | reflexivity].
Defined.

(** X6: from a pixel in the last row and in one of the last two columns the
    diffusion returns the working copy as it is; from every other pixel of
    the image it adds the weighted error at some target, so that an error of
    1 changes an all-zero working copy exactly when the pixel is not in that
    corner. *)
Theorem nothing_diffused_iff_bottom_right g x y w h error :
  0 ≤ x < w → 0 ≤ y < h → Z.of_nat (length g) = w * h →
  let g' := distributeErrorGrayscale g x y w h error in
  let zeros := replicate (Z.to_nat (w * h)) (of_int 0) in
  (w ≤ x + 2 ∧ h ≤ y + 1 → g' = g) ∧
  (¬ (w ≤ x + 2 ∧ h ≤ y + 1) →
   ∃ dy dx weight, (dy, dx, weight) ∈ kernel_table ∧
     0 ≤ x + dx < w ∧ 0 ≤ y + dy < h ∧
     get g' ((y + dy) * w + (x + dx))
     = Some (fround (add (f32_get g ((y + dy) * w + (x + dx)))
                         (mul error weight)))) ∧
  (distributeErrorGrayscale zeros x y w h (of_int 1) = zeros ↔
   w ≤ x + 2 ∧ h ≤ y + 1).
Proof.
  intros Hx Hy Hlen g' zeros.
  assert (∀ g0 e, w ≤ x + 2 ∧ h ≤ y + 1 →
            distributeErrorGrayscale g0 x y w h e = g0) as Hnone.
  { intros g0 e [Hw Hh]. unfold distributeErrorGrayscale.
    replace (x + 2 <? w) with false by lia.
    replace (x + 3 <? w) with false by lia.
    replace (y + 1 <? h) with false by lia.
    replace (y + 2 <? h) with false by lia. done. }
  assert (∀ g0 e, Z.of_nat (length g0) = w * h → ¬ (w ≤ x + 2 ∧ h ≤ y + 1) →
            ∃ t, t ∈ kernel_table ∧
              0 ≤ x + t.1.2 < w ∧ 0 ≤ y + t.1.1 < h ∧
              get (distributeErrorGrayscale g0 x y w h e)
                  ((y + t.1.1) * w + (x + t.1.2))
              = Some (fround (add (f32_get g0 ((y + t.1.1) * w + (x + t.1.2)))
                                  (mul e t.2)))) as Hsome.
  { intros g0 e Hlen0 Hnot.
    assert (x + 2 < w ∨ y + 1 < h) as [Hw|Hh] by lia.
    - exists (0, 2, div (of_int 5) (of_int 32)).
      assert ((0, 2, div (of_int 5) (of_int 32)) ∈ kernel_table) as Ht
        by (unfold kernel_table; rewrite !elem_of_cons; tauto).
      split; [done|]. cbn [fst snd]. do 2 (split; [lia|]).
      apply (distribute_target g0 x y w h e _ Hx Hy Hlen0 Ht); cbn; lia.
    - exists (1, 0, div (of_int 5) (of_int 32)).
      assert ((1, 0, div (of_int 5) (of_int 32)) ∈ kernel_table) as Ht
        by (unfold kernel_table; rewrite !elem_of_cons; tauto).
      split; [done|]. cbn [fst snd]. do 2 (split; [lia|]).
      apply (distribute_target g0 x y w h e _ Hx Hy Hlen0 Ht); cbn; lia. }
  split; [apply Hnone|]. split.
  - intros Hnot. destruct (Hsome g error Hlen Hnot) as ([[dy dx] weight] & Ht).
    exists dy, dx, weight. exact Ht.
  - split; [|intros Hc; by apply Hnone].
    intros Hsame.
    destruct (decide (w ≤ x + 2 ∧ h ≤ y + 1)) as [|Hnot]; [done|]. exfalso.
    destruct (Hsome zeros (of_int 1)) as (t & Ht & Htx & Hty & Hget); [|done|].
    { unfold zeros. rewrite length_replicate. nia. }
    rewrite Hsame in Hget.
    assert (0 ≤ (y + t.1.1) * w + (x + t.1.2) < w * h) as Hidx by nia.
    unfold f32_get, zeros, get in Hget.
    destruct (Z.leb_spec 0 ((y + t.1.1) * w + (x + t.1.2))); [|lia].
    rewrite lookup_replicate_2 in Hget by lia.
    cbn [to_number default] in Hget.
    assert (Forall (λ t : Z * Z * num,
              Some (of_int 0)
              ≠ Some (fround (add (of_int 0) (mul (of_int 1) t.2))))
              kernel_table) as Hall
      by (unfold kernel_table;
          repeat (constructor; [vm_compute; discriminate|]);
          constructor).
    rewrite Forall_forall in Hall. exact (Hall t Ht Hget).
Qed.

Lemma nothing_diffused_iff_bottom_right_witness :
  (0 ≤ 5 < 6 ∧ 0 ≤ 2 < 3 ∧ Z.of_nat (length gray_black_6x3) = 6 * 3 ∧
   6 ≤ 5 + 2 ∧ 3 ≤ 2 + 1) ∧
  distributeErrorGrayscale gray_black_6x3 5 2 6 3 (of_int 1) = gray_black_6x3.
Proof.
  split; [cbn; lia|].
  destruct (nothing_diffused_iff_bottom_right gray_black_6x3 5 2 6 3 (of_int 1))
    as (Hnone & _); [lia | lia | reflexivity |].
  apply Hnone. lia.
Defined.

(** ** Further properties: no lookahead *)

Lemma get_f32_add_congr g g' i v j :
  get g j = get g' j → get (f32_add g i v) j = get (f32_add g' i v) j.
Proof.
  intros Hj. destruct (decide (i = j)) as [->|Hne].
  - unfold f32_add, f32_set, f32_get. rewrite <- Hj.
    destruct (get g j) as [old|] eqn:Hg.
    + rewrite !get_set_eq; [done|..].
      * symmetry in Hj. by apply get_Some_range in Hj.
      * by apply get_Some_range in Hg.
    + assert (∀ a : list num, get a j = None →
                j < 0 ∨ Z.of_nat (length a) ≤ j) as Hout.
      { intros a Ha. destruct (decide (0 ≤ j < Z.of_nat (length a))) as [Hin|]; [|lia].
        apply get_is_Some in Hin as [? Hin]. congruence. }
      rewrite !set_out_of_range by (apply Hout; congruence). congruence.
  - by rewrite !get_f32_add_ne.
Qed.

Lemma get_apply_writes_congr ws g g' j :
  get g j = get g' j → get (apply_writes g ws) j = get (apply_writes g' ws) j.
Proof.
  revert g g'. induction ws as [|w ws IH]; intros g g' Hj; [done|].
  cbn. apply IH. by apply get_f32_add_congr.
Qed.

Lemma gray_before_prefix img img' i k :
  valid img → valid img' →
  img'.(width) = img.(width) → img'.(height) = img.(height) →
  0 ≤ i < img.(width) * img.(height) →
  (∀ p c, 0 ≤ p ≤ i → 0 ≤ c < 3 →
          get img'.(data) (p * 4 + c) = get img.(data) (p * 4 + c)) →
  0 ≤ k ≤ i →
  ∀ j, 0 ≤ j ≤ i → get (gray_before img' k) j = get (gray_before img k) j.
Proof.
  intros (Hw & Hh & Hlen) (Hw' & Hh' & Hlen') Ew Eh Hi Hrgb [Hk Hki].
  revert Hki. pattern k. apply natlike_ind; [| |done].
  - intros _ j Hj. unfold gray_before. rewrite !for_range_nonpos by lia.
    rewrite Ew, Eh. rewrite !get_to_grayscale by lia. do 2 f_equal.
    apply gray_of_ext. intros c Hc. apply Hrgb; lia.
  - clear k Hk. intros k Hk IH Hki j Hj. rewrite <- Z.add_1_r.
    rewrite !gray_before_succ by done. rewrite Ew, Eh.
    destruct (pixel_coordinates k img.(width) img.(height))
      as (Hx & Hy & _); [done|lia|].
    unfold f32_get. rewrite (IH ltac:(lia) k) by lia.
    rewrite !distribute_writes by done.
    apply get_apply_writes_congr, IH; lia.
Qed.

(** X7: the result has no lookahead: two valid images of the same
    dimensions whose colour channels agree on the pixels up to [i] in
    row-major order give results that agree on those pixels. *)
Theorem output_has_no_lookahead L img img' i :
  valid img → valid img' →
  img'.(width) = img.(width) → img'.(height) = img.(height) →
  0 ≤ i < img.(width) * img.(height) →
  (∀ p c, 0 ≤ p ≤ i → 0 ≤ c < 3 →
          get img'.(data) (p * 4 + c) = get img.(data) (p * 4 + c)) →
  ∃ out out', process L img = Return out ∧ process L img' = Return out' ∧
    ∀ p, 0 ≤ p ≤ i → pixel out'.(data) p = pixel out.(data) p.
Proof.
  intros Hv Hv' Ew Eh Hi Hrgb.
  destruct (process_valid L img Hv) as (out & Hout & _ & _ & _ & Hpix).
  destruct (process_valid L img' Hv') as (out' & Hout' & _ & _ & _ & Hpix').
  rewrite Ew, Eh in Hpix'.
  exists out, out'. split; [done|]. split; [done|]. intros p Hp.
  rewrite Hpix, Hpix' by lia. unfold f32_get.
  rewrite (gray_before_prefix img img' p p);
    [done | done | done | done | done | lia | | lia | lia].
  intros q c Hq Hc. apply Hrgb; lia.
Qed.

Lemma output_has_no_lookahead_witness :
  (valid img_dependent ∧ valid img_dependent_alt ∧ 0 ≤ 1 < 3 * 1) ∧
  ∃ out out', process sample_limit img_dependent = Return out ∧
    process sample_limit img_dependent_alt = Return out' ∧
    ∀ p, 0 ≤ p ≤ 1 → pixel out'.(data) p = pixel out.(data) p.
Proof.
  assert (valid img_dependent) as Hv by (unfold valid; cbn; lia).
  assert (valid img_dependent_alt) as Hv' by (unfold valid; cbn; lia).
  split; [split; [exact Hv | split; [exact Hv' | lia]]|].
  apply (output_has_no_lookahead sample_limit img_dependent img_dependent_alt 1 Hv Hv');
    [reflexivity | reflexivity | cbn; lia |].
  intros p c Hp Hc.
  assert (p = 0 ∨ p = 1) as [-> | ->] by lia;
    (assert (c = 0 ∨ c = 1 ∨ c = 2) as [-> | [-> | ->]] by lia); reflexivity.
Defined.


(** X8: the first pixel receives no diffused error, and neither does the
    second when the image is at least two pixels wide: their alpha is decided
    by their own rounded luminance. *)
Theorem first_pixels_see_no_diffusion L img :
  valid img →
  ∃ out, process L img = Return out ∧
    get out.(data) 3 = Some (alpha_of (fround (gray_of img.(data) 0))) ∧
    (2 ≤ img.(width) →
     get out.(data) 7 = Some (alpha_of (fround (gray_of img.(data) 1)))).
Proof.
  intros Hv. pose proof Hv as (Hw & Hh & Hlen).
  destruct (process_valid L img Hv) as (out & Hout & _ & _ & _ & Hpix).
  exists out. split; [done|]. split.
  - specialize (Hpix 0 ltac:(lia)). injection Hpix as _ _ _ Ha.
    change (0 * 4 + 3) with 3 in Ha. rewrite Ha.
    unfold gray_before, f32_get. rewrite for_range_nonpos by lia.
    by rewrite get_to_grayscale by lia.
  - intros Hw2. specialize (Hpix 1 ltac:(nia)). injection Hpix as _ _ _ Ha.
    change (1 * 4 + 3) with 7 in Ha. rewrite Ha.
    unfold f32_get. change (gray_before img 1) with (gray_before img (0 + 1)).
    rewrite (gray_before_succ img 0) by lia.
    rewrite Z.mod_0_l, Z.div_0_l by lia.
    replace 1 with (0 * img.(width) + (0 + 1)) at 1 2 by lia.
    rewrite diffusion_skips_aux by lia.
    replace (0 * img.(width) + (0 + 1)) with 1 by lia.
    unfold gray_before. rewrite for_range_nonpos by lia.
    by rewrite get_to_grayscale by nia.
Qed.

Lemma first_pixels_see_no_diffusion_witness :
  (valid img_tens ∧ 2 ≤ 4) ∧
  ∃ out, process sample_limit img_tens = Return out ∧
    get out.(data) 7 = Some (alpha_of (fround (gray_of img_tens.(data) 1))).
Proof.
  assert (valid img_tens) as Hv by (unfold valid; cbn; lia).
  split; [split; [exact Hv | lia]|].
  destruct (first_pixels_see_no_diffusion sample_limit img_tens Hv)
    as (out & Hout & _ & Hsnd).
  exists out. split; [exact Hout|]. apply Hsnd. cbn. lia.
Defined.


(** ** Further properties: uniform images and repeated passes *)

Lemma f32_add_const n c i v :
  fround (add c v) = c → f32_add (replicate n c) i v = replicate n c.
Proof.
  intros Hv. unfold f32_add, f32_set, f32_get.
  destruct (decide (0 ≤ i < Z.of_nat n)) as [Hi|Hi].
  - unfold get, set. destruct (Z.leb_spec 0 i); [|lia].
    rewrite lookup_replicate_2 by lia.
    change (to_number (Some c)) with c. rewrite Hv.
    apply list_insert_id, lookup_replicate_2. lia.
  - apply set_out_of_range. rewrite length_replicate. lia.
Qed.

Lemma apply_writes_const n c ws :
  Forall (λ w, fround (add c w.2) = c) ws →
  apply_writes (replicate n c) ws = replicate n c.
Proof.
  induction 1 as [|w ws Hw _ IH]; [done|].
  cbn. rewrite f32_add_const by done. apply IH.
Qed.

(** A working copy that is constant, at a value whose error changes nothing,
    stays as it is throughout the scan. *)
Lemma for_range_gray_step_const width height c k :
  0 < width → 0 ≤ k ≤ width * height →
  Forall (λ t, fround (add c (mul (error_of c) t.2)) = c) kernel_table →
  for_range k (gray_step width height) (replicate (Z.to_nat (width * height)) c)
  = replicate (Z.to_nat (width * height)) c.
Proof.
  intros Hw [Hk Hle] Hc. revert Hle. pattern k. apply natlike_ind; [| |done].
  - done.
  - clear k Hk. intros k Hk IH Hle. rewrite <- Z.add_1_r, for_range_succ by done.
    rewrite IH by lia. unfold gray_step.
    destruct (pixel_coordinates k width height) as (Hx & Hy & _); [done|lia|].
    rewrite distribute_writes by done.
    apply apply_writes_const, Forall_forall.
    intros [j v] (t & Ht & _ & _ & _ & ->)%elem_of_writes.
    unfold f32_get, get. destruct (Z.leb_spec 0 k); [|lia].
    rewrite lookup_replicate_2 by lia. cbn [snd to_number default].
    revert t Ht. by apply Forall_forall.
Qed.

Lemma to_grayscale_uniform width height d v :
  0 ≤ width * height →
  (∀ i c, 0 ≤ i < width * height → 0 ≤ c < 3 → get d (i * 4 + c) = Some v) →
  to_grayscale width height d
  = replicate (Z.to_nat (width * height)) (fround (gray_of [v; v; v] 0)).
Proof.
  intros Hn Hrgb. apply get_ext.
  - by rewrite length_to_grayscale, length_replicate.
  - intros i. rewrite length_to_grayscale. intros Hi.
    rewrite get_to_grayscale by lia.
    unfold get. destruct (Z.leb_spec 0 i); [|lia].
    rewrite lookup_replicate_2 by lia. do 2 f_equal.
    unfold gray_of, byte_at. rewrite <- (Z.add_0_r (i * 4)) at 1.
    rewrite !Hrgb by lia. reflexivity.
Qed.

Lemma process_uniform L img v :
  valid img → v = 0 ∨ v = 255 →
  (∀ i c, 0 ≤ i < img.(width) * img.(height) → 0 ≤ c < 3 →
          get img.(data) (i * 4 + c) = Some v) →
  ∃ out, process L img = Return out ∧
    out.(width) = img.(width) ∧ out.(height) = img.(height) ∧
    length out.(data) = length img.(data) ∧
    ∀ i, 0 ≤ i < img.(width) * img.(height) →
      pixel out.(data) i = if v =? 0 then opaque_black else transparent.
Proof.
  intros Hv Hbw Hrgb. pose proof Hv as (Hw & Hh & Hlen).
  destruct (process_valid L img Hv) as (out & Hout & Ew & Eh & El & Hpix).
  exists out. do 4 (split; [done|]). intros i Hi. rewrite Hpix by done.
  unfold gray_before. rewrite (to_grayscale_uniform _ _ _ v) by (done || lia).
  rewrite for_range_gray_step_const; [| done | lia |].
  - unfold f32_get, get. destruct (Z.leb_spec 0 i); [|lia].
    rewrite lookup_replicate_2 by lia.
    destruct Hbw as [-> | ->]; reflexivity.
  - destruct Hbw as [-> | ->]; by repeat constructor.
Qed.

Lemma data_ext_pixels (d d' : list Z) n :
  0 ≤ n → Z.of_nat (length d) = n * 4 → Z.of_nat (length d') = n * 4 →
  (∀ i, 0 ≤ i < n → pixel d i = pixel d' i) → d = d'.
Proof.
  intros Hn Hlen Hlen' Hpix. apply get_ext; [lia|].
  intros j Hj.
  assert (0 ≤ j / 4 < n) as Hi.
  { split; [apply Z.div_pos; lia|]. apply Z.div_lt_upper_bound; lia. }
  specialize (Hpix (j / 4) Hi). injection Hpix as H0 H1 H2 H3.
  pose proof (Z.mod_pos_bound j 4 ltac:(lia)) as Hc.
  rewrite (Z.div_mod j 4) by lia. rewrite (Z.mul_comm 4).
  assert (j mod 4 = 0 ∨ j mod 4 = 1 ∨ j mod 4 = 2 ∨ j mod 4 = 3)
    as [-> | [-> | [-> | ->]]] by lia; rewrite ?Z.add_0_r; done.
Qed.

(** X9: a valid image whose colour channels are all 0 comes out opaque
    black everywhere, and one whose colour channels are all 255 comes out
    transparent everywhere, whatever the alphas and the dimensions. *)
Theorem black_and_white_images L img v :
  valid img → v = 0 ∨ v = 255 →
  (∀ i c, 0 ≤ i < img.(width) * img.(height) → 0 ≤ c < 3 →
          get img.(data) (i * 4 + c) = Some v) →
  ∃ out, process L img = Return out ∧
    ∀ i, 0 ≤ i < img.(width) * img.(height) →
      pixel out.(data) i = if v =? 0 then opaque_black else transparent.
Proof.
  intros Hv Hbw Hrgb.
  destruct (process_uniform L img v Hv Hbw Hrgb) as (out & Hout & _ & _ & _ & Hpix).
  by exists out.
Qed.

Lemma black_and_white_images_witness :
  (valid img_white ∧ (255 = 0 ∨ 255 = 255)) ∧
  ∃ out, process sample_limit img_white = Return out ∧
    ∀ i, 0 ≤ i < 2 * 1 → pixel out.(data) i = transparent.
Proof.
  assert (valid img_white) as Hv by (unfold valid; cbn; lia).
  split; [split; [exact Hv | right; reflexivity]|].
  apply (black_and_white_images sample_limit img_white 255 Hv); [right; reflexivity|].
  intros i c Hi Hc. cbn in Hi.
  assert (i = 0 ∨ i = 1) as [-> | ->] by lia;
    (assert (c = 0 ∨ c = 1 ∨ c = 2) as [-> | [-> | ->]] by lia); reflexivity.
Defined.


Lemma process_all_black L img :
  valid img →
  (∀ i, 0 ≤ i < img.(width) * img.(height) →
        pixel img.(data) i = opaque_black) →
  process L img = Return img.
Proof.
  intros Hv Hblack. pose proof Hv as (Hw & Hh & Hlen).
  destruct (process_uniform L img 0 Hv) as (out & Hout & Ew & Eh & El & Hpix);
    [by left| |].
  { intros i c Hi Hc. specialize (Hblack i Hi). injection Hblack as H0 H1 H2 _.
    assert (c = 0 ∨ c = 1 ∨ c = 2) as [-> | [-> | ->]] by lia;
      rewrite ?Z.add_0_r; done. }
  rewrite Hout. f_equal. destruct out as [ow oh od], img as [iw ih id].
  cbn [width height data] in *. subst ow oh. f_equal.
  apply (data_ext_pixels _ _ (iw * ih)); [lia | lia | lia |].
  intros i Hi. by rewrite Hpix, Hblack.
Qed.

(** X10: a valid image all of whose pixels are opaque black is returned
    as it is. *)
Theorem opaque_black_stencil_is_a_fixed_point L img :
  valid img →
  (∀ i, 0 ≤ i < img.(width) * img.(height) →
        pixel img.(data) i = opaque_black) →
  process L img = Return img.
Proof. apply process_all_black. Qed.

Lemma opaque_black_stencil_is_a_fixed_point_witness :
  valid img_opaque ∧ process sample_limit img_opaque = Return img_opaque.
Proof.
  assert (valid img_opaque) as Hv by (unfold valid; cbn; lia).
  split; [exact Hv|].
  apply (opaque_black_stencil_is_a_fixed_point sample_limit img_opaque Hv).
  intros i Hi. cbn in Hi.
  assert (i = 0 ∨ i = 1) as [-> | ->] by lia; reflexivity.
Defined.


(** X11: on a valid input a third pass changes nothing: the result of
    the second pass is returned as it is by the next one. *)
Theorem dithering_is_stable_after_two_passes L img :
  valid img →
  ∃ out1 out2,
    process L img = Return out1 ∧ process L out1 = Return out2 ∧
    process L out2 = Return out2.
Proof.
  intros Hv. pose proof Hv as (Hw & Hh & Hlen).
  destruct (process_valid L img Hv) as (out1 & Hout1 & Ew & Eh & El & Hpix1).
  assert (valid out1) as Hv1 by (unfold valid; by rewrite Ew, Eh, El).
  destruct (process_uniform L out1 0 Hv1) as (out2 & Hout2 & Ew2 & Eh2 & El2 & Hpix2);
    [by left| |].
  { intros i c Hi Hc. rewrite Ew, Eh in Hi. specialize (Hpix1 i Hi).
    injection Hpix1 as H0 H1 H2 _.
    assert (c = 0 ∨ c = 1 ∨ c = 2) as [-> | [-> | ->]] by lia;
      rewrite ?Z.add_0_r; done. }
  exists out1, out2. split; [done|]. split; [done|].
  apply process_all_black.
  - unfold valid. by rewrite Ew2, Eh2, El2.
  - intros i Hi. rewrite Ew2, Eh2 in Hi. by rewrite Hpix2.
Qed.

Lemma dithering_is_stable_after_two_passes_witness :
  valid img_dependent ∧
  ∃ out1 out2,
    process sample_limit img_dependent = Return out1 ∧
    process sample_limit out1 = Return out2 ∧
    process sample_limit out2 = Return out2.
Proof.
  split; [unfold valid; cbn; lia|].
  apply (dithering_is_stable_after_two_passes sample_limit img_dependent).
  unfold valid; cbn; lia.
Defined.


(** ** Further properties: the guards are the caller's *)

(** X12: the column of the pixel itself is written without a test on
    [x]: called with [x = width], one column past the row, the method adds
    5/32 of the error to the first entry of row [y + 2], although the target
    [(width, y + 1)] is out of bounds.  The bounds of [x] are the caller's to
    keep. *)
Theorem diffusion_relies_on_its_caller_for_x g y w h error :
  2 ≤ w → 0 ≤ y → y + 2 < h → Z.of_nat (length g) = w * h →
  ¬ in_bounds w h (w + 0) (y + 1) ∧
  get (distributeErrorGrayscale g w y w h error) ((y + 2) * w)
  = Some (fround (add (f32_get g ((y + 2) * w)) (mul error (matrix_at 1 2)))).
Proof.
  intros Hw Hy Hh Hlen. split.
  { unfold in_bounds. replace (w + 0 <? w) with false by lia.
    rewrite andb_false_r. cbn. tauto. }
  unfold distributeErrorGrayscale.
  replace (w + 2 <? w) with false by lia.
  replace (w + 3 <? w) with false by lia.
  replace (w + 1 <? w) with false by lia.
  replace (y + 1 <? h) with true by lia.
  replace (y + 2 <? h) with true by lia.
  replace (0 <=? w - 2) with true by lia.
  replace (0 <=? w - 1) with true by lia.
  rewrite !get_f32_add_ne by nia.
  replace ((y + 1) * w + w) with ((y + 2) * w) by lia.
  rewrite get_f32_add_eq by (rewrite !length_f32_add; nia).
  unfold f32_get. by rewrite !get_f32_add_ne by nia.
Qed.

Lemma diffusion_relies_on_its_caller_for_x_witness :
  (2 ≤ 6 ∧ 0 ≤ 0 ∧ 0 + 2 < 3 ∧ Z.of_nat (length gray_black_6x3) = 6 * 3) ∧
  get (distributeErrorGrayscale gray_black_6x3 6 0 6 3 (of_int 1)) ((0 + 2) * 6)
  = Some (fround (add (f32_get gray_black_6x3 ((0 + 2) * 6))
                      (mul (of_int 1) (matrix_at 1 2)))).
Proof.
  split; [cbn; lia|].
  destruct (diffusion_relies_on_its_caller_for_x gray_black_6x3 0 6 3 (of_int 1))
    as (_ & Hwrite); [lia | lia | lia | reflexivity | exact Hwrite].
Defined.


(** ** Further properties: the top rows alone *)

Lemma get_take {A} (a : list A) n j :
  0 ≤ j < Z.of_nat n → get (take n a) j = get a j.
Proof.
  intros Hj. unfold get. destruct (Z.leb_spec 0 j); [|done].
  apply lookup_take_lt. lia.
Qed.

Lemma writes_above x y w h k error j v :
  0 ≤ x < w → 0 ≤ y < k → k ≤ h → j < w * k →
  (j, v) ∈ writes x y w h error ↔ (j, v) ∈ writes x y w k error.
Proof.
  intros Hx Hy Hk Hj. rewrite !elem_of_writes. split.
  - intros (t & Ht & Htx & Hty & -> & ->). exists t.
    do 2 (split; [done|]). split; [nia|done].
  - intros (t & Ht & Htx & Hty & -> & ->). exists t.
    do 2 (split; [done|]). split; [lia|done].
Qed.

(** On the rows above [k] the diffusion is the same whether or not the image
    goes on below them. *)
Lemma distribute_above g g' x y w h k error j :
  0 ≤ x < w → 0 ≤ y < k → k ≤ h → 0 ≤ j < w * k →
  Z.of_nat (length g) = w * h → Z.of_nat (length g') = w * k →
  get g j = get g' j →
  get (distributeErrorGrayscale g x y w h error) j
  = get (distributeErrorGrayscale g' x y w k error) j.
Proof.
  intros Hx Hy Hk Hj Hlen Hlen' Hget. rewrite !distribute_writes by lia.
  destruct (decide (j ∈ (writes x y w k error).*1)) as [Hin|Hout].
  - apply list_elem_of_fmap in Hin as ([i v] & -> & Hin). cbn [fst] in *.
    rewrite (get_apply_writes_at _ g' i v); [|apply NoDup_writes|done|lia].
    rewrite (get_apply_writes_at _ g i v);
      [|apply NoDup_writes|by apply (writes_above x y w h k); [lia..|]|nia].
    unfold f32_get. by rewrite Hget.
  - rewrite (get_apply_writes_other _ g') by done.
    rewrite get_apply_writes_other; [done|].
    intros ([i v] & -> & Hin)%list_elem_of_fmap. cbn [fst] in *.
    apply Hout, list_elem_of_fmap. exists (i, v). split; [done|].
    by apply (writes_above x y w h k); [lia..|].
Qed.

Lemma gray_before_above img k n :
  valid img → 0 < k ≤ img.(height) →
  let top := mkImageData img.(width) k
               (take (Z.to_nat (img.(width) * k * 4)) img.(data)) in
  0 ≤ n ≤ img.(width) * k →
  ∀ j, 0 ≤ j < img.(width) * k →
       get (gray_before img n) j = get (gray_before top n) j.
Proof.
  intros (Hw & Hh & Hlen) Hk top [Hn Hle]. revert Hle.
  pattern n. apply natlike_ind; [| |done].
  - intros _ j Hj. unfold gray_before. rewrite !for_range_nonpos by lia.
    cbn [width height data top]. rewrite !get_to_grayscale by nia.
    do 2 f_equal. apply gray_of_ext. intros c Hc.
    symmetry. apply get_take. nia.
  - clear n Hn. intros n Hn IH Hle j Hj. rewrite <- Z.add_1_r.
    rewrite !gray_before_succ by done. cbn [width height data top].
    destruct (pixel_coordinates n img.(width) k) as (Hx & Hy & _); [done|lia|].
    unfold f32_get. rewrite (IH ltac:(lia) n) by lia.
    apply (distribute_above _ _ _ _ _ _ k); try done; try lia.
    + rewrite length_gray_before. nia.
    + rewrite length_gray_before. cbn [width height top]. nia.
    + apply IH; lia.
Qed.

(** X13: dithering the top [k] rows of a valid image on their own gives
    the top [k] rows of the dithered image: error only travels rightwards
    and downwards, so the rows below never influence the rows above. *)
Theorem dithering_the_top_rows L img k :
  valid img → 0 < k ≤ img.(height) →
  ∃ out out',
    process L img = Return out ∧
    process L (mkImageData img.(width) k
               (take (Z.to_nat (img.(width) * k * 4)) img.(data)))
    = Return out' ∧
    out'.(data) = take (Z.to_nat (img.(width) * k * 4)) out.(data).
Proof.
  intros Hv Hk. pose proof Hv as (Hw & Hh & Hlen).
  set (top := mkImageData img.(width) k
                (take (Z.to_nat (img.(width) * k * 4)) img.(data))).
  assert (0 < img.(width) * k ≤ img.(width) * img.(height)) as Hwk by nia.
  assert (valid top) as Hvt.
  { unfold valid, top. cbn [width height data].
    rewrite length_take. split; [done|]. split; lia. }
  destruct (process_valid L img Hv) as (out & Hout & _ & _ & El & Hpix).
  destruct (process_valid L top Hvt) as (out' & Hout' & _ & _ & El' & Hpix').
  cbn [width height data top] in Hpix', El'. rewrite length_take in El'.
  exists out, out'. split; [done|]. split; [done|].
  apply (data_ext_pixels _ _ (img.(width) * k)); [lia | lia | |].
  { rewrite length_take. lia. }
  intros i Hi. rewrite Hpix' by done. unfold pixel at 1.
  rewrite !get_take by lia. fold (pixel out.(data) i).
  rewrite Hpix by lia. unfold f32_get.
  by rewrite (gray_before_above img k i) by (done || lia).
Qed.

Lemma dithering_the_top_rows_witness :
  (valid img_two_rows ∧ 0 < 1 ≤ 2) ∧
  ∃ out out',
    process sample_limit img_two_rows = Return out ∧
    process sample_limit
      (mkImageData 2 1 (take (Z.to_nat (2 * 1 * 4)) img_two_rows.(data)))
    = Return out' ∧
    out'.(data) = take (Z.to_nat (2 * 1 * 4)) out.(data).
Proof.
  assert (valid img_two_rows) as Hv by (unfold valid; cbn; lia).
  split; [split; [exact Hv | lia]|].
  apply (dithering_the_top_rows sample_limit img_two_rows 1 Hv). cbn. lia.
Defined.
